(** * CONLL-U pipeline (lab_6_pipeline/pipeline.py): a shallow embedding

    The development follows the Python module top-down: the token and
    sentence model ([ConlluToken], [ConlluSentence]), the Mystem tag
    converter ([MystemTagConverter]) and the alignment loop of
    [MorphologicalAnalysisPipeline._process].

    [CorpusManager] and [MorphologicalAnalysisPipeline.run] are modelled
    over what they see of the file system and of the articles.

    Python strings are sequences of Unicode code points; they are modelled
    as lists of code points.  The character database of the Python runtime
    (str.isalnum, str.lower, ...) is not part of the module: it is a
    parameter ([UnicodeData]), with one small concrete table used in the
    examples. *)

From Stdlib Require Import String Ascii.
From Stdlib Require DecimalZ.
From stdpp Require Import gmap list sorting.

Local Open Scope N_scope.

(** ** Strings *)

Definition char := N.
Definition str := list char.

(** String literals of this file are UTF-8; only one- and two-byte sequences
    (ASCII, Cyrillic) occur. *)
Fixpoint utf8_decode (bytes : list N) : str :=
  match bytes with
  | [] => []
  | b :: rest =>
      if b <? 128 then b :: utf8_decode rest
      else match rest with
           | [] => []
           | b' :: rest' => ((b - 192) * 64 + (b' - 128)) :: utf8_decode rest'
           end
  end.

Definition lit (s : string) : str :=
  utf8_decode (List.map N_of_ascii (list_ascii_of_string s)).

Definition TAB : str := [9].
Definition NL : str := [10].

(** [sep.join(parts)] *)
Fixpoint join (sep : str) (parts : list str) : str :=
  match parts with
  | [] => []
  | [p] => p
  | p :: ps => p ++ sep ++ join sep ps
  end.

(** [str(n)] for an int. *)
Fixpoint digits_of_uint (u : Decimal.uint) : str :=
  match u with
  | Decimal.Nil => []
  | Decimal.D0 u => 48 :: digits_of_uint u
  | Decimal.D1 u => 49 :: digits_of_uint u
  | Decimal.D2 u => 50 :: digits_of_uint u
  | Decimal.D3 u => 51 :: digits_of_uint u
  | Decimal.D4 u => 52 :: digits_of_uint u
  | Decimal.D5 u => 53 :: digits_of_uint u
  | Decimal.D6 u => 54 :: digits_of_uint u
  | Decimal.D7 u => 55 :: digits_of_uint u
  | Decimal.D8 u => 56 :: digits_of_uint u
  | Decimal.D9 u => 57 :: digits_of_uint u
  end.

Definition str_of_int (z : Z) : str :=
  match Z.to_int z with
  | Decimal.Pos u => digits_of_uint u
  | Decimal.Neg u => 45 :: digits_of_uint u
  end.

(** [needle] is a prefix of [s]. *)
Fixpoint startswith (needle s : str) : bool :=
  match needle, s with
  | [], _ => true
  | _ :: _, [] => false
  | a :: needle', b :: s' => (a =? b) && startswith needle' s'
  end.

(** [needle in hay] *)
Fixpoint contains (needle hay : str) : bool :=
  startswith needle hay ||
  match hay with
  | [] => false
  | _ :: hay' => contains needle hay'
  end.

(** [re.sub(re.escape(needle), '', hay, 1)]: the leftmost occurrence of the
    literal [needle] is deleted; without an occurrence [hay] is returned. *)
Fixpoint sub_first (needle hay : str) : str :=
  if startswith needle hay then drop (length needle) hay
  else match hay with
       | [] => []
       | c :: hay' => c :: sub_first needle hay'
       end.

Fixpoint takewhile (P : char -> bool) (s : str) : str :=
  match s with
  | [] => []
  | c :: s' => if P c then c :: takewhile P s' else []
  end.

Fixpoint dropwhile (P : char -> bool) (s : str) : str :=
  match s with
  | [] => []
  | c :: s' => if P c then dropwhile P s' else s
  end.

(** [re.findall('[cls]+', s)]: the maximal runs of characters of the class,
    left to right.  [cur] is the run being read. *)
Definition flush (cur : str) : list str :=
  match cur with [] => [] | _ => [cur] end.

Fixpoint findall_from (P : char -> bool) (cur s : str) : list str :=
  match s with
  | [] => flush cur
  | c :: s' =>
      if P c then findall_from P (cur ++ [c]) s'
      else flush cur ++ findall_from P [] s'
  end.

Definition findall (P : char -> bool) (s : str) : list str :=
  findall_from P [] s.

(** [re.search('[cls]+', s)]: the leftmost maximal run, [None] without one. *)
Definition search (P : char -> bool) (s : str) : option str :=
  match takewhile P (dropwhile (fun c => negb (P c)) s) with
  | [] => None
  | run => Some run
  end.

(** The character classes [[A-Z]] and [[а-я]] (U+0430 .. U+044F). *)
Definition in_range (lo hi : char) (c : char) : bool := (lo <=? c) && (c <=? hi).
Definition class_A_Z : char -> bool := in_range 65 90.
Definition class_a_ya : char -> bool := in_range 1072 1103.

(** Comparison of strings, [a < b] in Python: lexicographic on code points. *)
Fixpoint str_compare (a b : str) : comparison :=
  match a, b with
  | [], [] => Eq
  | [], _ :: _ => Lt
  | _ :: _, [] => Gt
  | x :: a', y :: b' =>
      match x ?= y with
      | Eq => str_compare a' b'
      | c => c
      end
  end.

Definition str_ltb (a b : str) : bool :=
  match str_compare a b with Lt => true | _ => false end.

(** ** The character database of the runtime *)

Class UnicodeData := {
  (** [c.isalnum()] *)
  isalnum : char -> bool;
  (** [c.isdigit()] *)
  isdigit : char -> bool;
  (** [c.isspace()]; also the class [\s] of [re] on str patterns *)
  isspace : char -> bool;
  (** the full lowercase mapping of one code point *)
  tolower_full : char -> list char;
  (** the properties Cased and Case_Ignorable, used for capital sigma *)
  is_cased : char -> bool;
  is_case_ignorable : char -> bool
}.

Section Runtime.
Context `{UnicodeData}.

(** [any(c.isalnum() for c in s)] *)
Definition any_isalnum (s : str) : bool := existsb isalnum s.

(** [s.isdigit()]: every character is a digit and there is at least one. *)
Definition str_isdigit (s : str) : bool :=
  match s with
  | [] => false
  | _ => forallb isdigit s
  end.

(** [s.strip()] *)
Definition strip (s : str) : str :=
  reverse (dropwhile isspace (reverse (dropwhile isspace s))).

(** The class [\w] of [re] on str patterns: alphanumeric or underscore. *)
Definition re_word (c : char) : bool := isalnum c || (c =? 95).

(** The class [[^\w\s]]. *)
Definition re_not_word_space (c : char) : bool :=
  negb (re_word c || isspace c).

(** [re.sub('[cls]', '', s)] for a one-character class. *)
Definition sub_class (P : char -> bool) (s : str) : str :=
  List.filter (fun c => negb (P c)) s.

(** [s.lower()].  Each code point is replaced by its full lowercase
    mapping, except capital sigma (U+03A3), which becomes final sigma
    (U+03C2) when it ends a word and small sigma (U+03C3) otherwise.
    [before] holds the characters to the left, nearest first. *)
Definition first_not_ignorable (s : str) : option char :=
  head (dropwhile is_case_ignorable s).

Definition final_sigma (before after : str) : bool :=
  match first_not_ignorable before with
  | Some c =>
      is_cased c &&
      match first_not_ignorable after with
      | Some d => negb (is_cased d)
      | None => true
      end
  | None => false
  end.

Definition lower_at (before : str) (c : char) (after : str) : list char :=
  if c =? 931 then (if final_sigma before after then [962] else [963])
  else tolower_full c.

Fixpoint lower_from (before s : str) : str :=
  match s with
  | [] => []
  | c :: s' => lower_at before c s' ++ lower_from (c :: before) s'
  end.

Definition lower (s : str) : str := lower_from [] s.
End Runtime.

(** ** Exceptions *)

(** [KeyError] and [TypeError] are the two built-in exceptions the modelled
    functions can raise.  [UnknownTagError] is the exception the
    specification names for the tag converter; the module defines no such
    class and no function below raises it. *)
Inductive PyError :=
  | KeyError (key : str)   (* a missing dict key *)
  | TypeError              (* subscripting [None] *)
  | UnknownTagError.

Inductive outcome (A : Type) :=
  | Ok (a : A)
  | Raise (e : PyError).
Arguments Ok {A} a.
Arguments Raise {A} e.

Definition bind {A B} (r : outcome A) (k : A -> outcome B) : outcome B :=
  match r with
  | Ok a => k a
  | Raise e => Raise e
  end.

Notation "'let!' x ':=' r 'in' k" := (bind r (fun x => k))
  (at level 10, x name, r at level 100, k at level 200).

(** [d[key]] on a dict. *)
Definition getitem {V} (d : gmap str V) (key : str) : outcome V :=
  match d !! key with
  | Some v => Ok v
  | None => Raise (KeyError key)
  end.

(** ** MorphologicalTokenDTO, ConlluToken, ConlluSentence *)

Record MorphologicalTokenDTO := mkDTO {
  lemma : str;
  pos : str;
  tags : str
}.

(** [MorphologicalTokenDTO()] with the default arguments. *)
Definition default_DTO : MorphologicalTokenDTO := mkDTO [] [] [].

Record ConlluToken := mkToken {
  tok_text : str;
  morphological_parameters : MorphologicalTokenDTO;
  position : Z
}.

(** [ConlluToken(text)] *)
Definition new_ConlluToken (text : str) : ConlluToken :=
  mkToken text default_DTO 0%Z.

Definition set_morphological_parameters
    (t : ConlluToken) (parameters : MorphologicalTokenDTO) : ConlluToken :=
  mkToken (tok_text t) parameters (position t).

(** [token.position = p] *)
Definition set_position (t : ConlluToken) (p : Z) : ConlluToken :=
  mkToken (tok_text t) (morphological_parameters t) p.

(** The truth value of a str: non-empty. *)
Definition truthy (s : str) : bool :=
  match s with [] => false | _ => true end.

(** [ConlluToken.get_conllu_text] *)
Definition get_conllu_text (t : ConlluToken) (include_morphological_tags : bool) : str :=
  let position := str_of_int (position t) in
  let text := tok_text t in
  let lemma := lemma (morphological_parameters t) in
  let pos := pos (morphological_parameters t) in
  let xpos := lit "_" in
  let feats :=
    if include_morphological_tags && truthy (tags (morphological_parameters t))
    then tags (morphological_parameters t)
    else lit "_" in
  let head := lit "0" in
  let deprel := lit "root" in
  let deps := lit "_" in
  let misc := lit "_" in
  join TAB [position; text; lemma; pos; xpos; feats; head; deprel; deps; misc].

(** [ConlluToken.get_cleaned] *)
Definition get_cleaned `{UnicodeData} (t : ConlluToken) : str :=
  sub_class re_not_word_space (lower (tok_text t)).

Record ConlluSentence := mkSentence {
  sent_position : Z;
  sent_text : str;
  sent_tokens : list ConlluToken
}.

(** [ConlluSentence._format_tokens] *)
Definition _format_tokens (s : ConlluSentence) (include_morphological_tags : bool) : str :=
  join NL (List.map (fun token => get_conllu_text token include_morphological_tags)
                    (sent_tokens s)).

(** [ConlluSentence.get_conllu_text] *)
Definition sentence_conllu_text (s : ConlluSentence) (include_morphological_tags : bool) : str :=
  lit "# sent_id = " ++ str_of_int (sent_position s) ++ NL ++
  lit "# text = " ++ sent_text s ++ NL ++
  _format_tokens s include_morphological_tags ++ NL.

(** ** MystemTagConverter *)

(** The base class TagConverter (core_utils) supplies the category names as
    class attributes and loads the mapping table from JSON; both are fields
    here. *)
Record TagConverter := mkConverter {
  cat_pos : str;
  cat_case : str;
  cat_number : str;
  cat_gender : str;
  cat_animacy : str;
  cat_tense : str;
  _tag_mapping : gmap str (gmap str str)
}.

(** The tuple iterated by [convert_morphological_tags]. *)
Definition feature_categories (tc : TagConverter) : list str :=
  [cat_case tc; cat_number tc; cat_gender tc; cat_animacy tc; cat_tense tc].

(** [format_tags] is a dict filled only under the guard
    [category not in format_tags]; it is kept as the list of its items in
    insertion order. *)
Definition dict_items := list (str * str).

Definition has_key (category : str) (format_tags : dict_items) : bool :=
  existsb (fun kv => bool_decide (kv.1 = category)) format_tags.

(** The inner [for category in (...)] loop for one [tag]. *)
Fixpoint assign_tag (tc : TagConverter) (tag : str) (categories : list str)
    (format_tags : dict_items) : outcome dict_items :=
  match categories with
  | [] => Ok format_tags
  | category :: rest =>
      let! m := getitem (_tag_mapping tc) category in
      match m !! tag with
      | Some v =>
          if negb (has_key category format_tags)
          then Ok (format_tags ++ [(category, v)])
          else assign_tag tc tag rest format_tags
      | None => assign_tag tc tag rest format_tags
      end
  end.

(** The outer [for tag in tag_list] loop. *)
Fixpoint assign_tags (tc : TagConverter) (tag_list : list str)
    (format_tags : dict_items) : outcome dict_items :=
  match tag_list with
  | [] => Ok format_tags
  | tag :: rest =>
      let! format_tags' := assign_tag tc tag (feature_categories tc) format_tags in
      assign_tags tc rest format_tags'
  end.

(** Comparison of [(cat, val)] tuples: [a < b]. *)
Definition item_ltb (a b : str * str) : bool :=
  match str_compare a.1 b.1 with
  | Lt => true
  | Eq => str_ltb a.2 b.2
  | Gt => false
  end.

(** [sorted(items)] *)
Fixpoint insert_item (x : str * str) (l : dict_items) : dict_items :=
  match l with
  | [] => [x]
  | y :: l' => if item_ltb y x then y :: insert_item x l' else x :: y :: l'
  end.

Definition sorted (l : dict_items) : dict_items := foldr insert_item [] l.

(** [f'{cat}={val}'] *)
Definition render_item (kv : str * str) : str := kv.1 ++ lit "=" ++ kv.2.

Definition convert_morphological_tags (tc : TagConverter) (tags : str) : outcome str :=
  let tag_list := findall class_a_ya tags in
  let! format_tags := assign_tags tc tag_list [] in
  Ok (join (lit "|") (List.map render_item (sorted format_tags))).

Definition convert_pos (tc : TagConverter) (tags : str) : outcome str :=
  match search class_A_Z tags with
  | None => Raise TypeError
  | Some pos =>
      let! m := getitem (_tag_mapping tc) (cat_pos tc) in
      getitem m pos
  end.

(** ** MorphologicalAnalysisPipeline._process *)

(** One item of [token['analysis']]. *)
Record Analysis := mkAnalysis {
  lex : str;
  gr : str
}.

(** One dict of the analyzer's output; [analysis = None] when the key is
    absent. *)
Record AnalyzerRecord := mkRecord {
  text : str;
  analysis : option (list Analysis)
}.

(** [{'text': '.'}] *)
Definition terminal : AnalyzerRecord := mkRecord (lit ".") None.

Section Pipeline.
Context `{UnicodeData}.
Variable tag_converter : TagConverter.

(** The loop [for token in result] of one sentence.  [result] is the
    generator shared by all sentences: the function returns the tokens
    gathered for the sentence and what is left of the generator. *)
Fixpoint collect_tokens (sentence : str) (result : list AnalyzerRecord)
    (tokens : list AnalyzerRecord) : list AnalyzerRecord * list AnalyzerRecord :=
  match result with
  | [] => (tokens, [])
  | token :: result' =>
      if negb (contains (text token) sentence)
      then collect_tokens sentence result' tokens
      else
        let sentence_subbed := sub_first (text token) sentence in
        let tokens' :=
          if any_isalnum (text token) then tokens ++ [token] else tokens in
        if negb (any_isalnum sentence_subbed)
        then (tokens', result')
        else collect_tokens sentence result' tokens'
  end.

(** The body of the loop over [enumerate(tokens, start=1)]. *)
Definition build_token (idx_token : Z) (token : AnalyzerRecord) : outcome ConlluToken :=
  let! morphology :=
    match analysis token with
    | Some (first :: _) =>
        let lex := lex first in
        let! pos := convert_pos tag_converter (gr first) in
        let! tags := convert_morphological_tags tag_converter (gr first) in
        Ok (mkDTO lex pos tags)
    | _ =>
        let lex := text token in
        let tags := [] in
        let pos :=
          if bool_decide (strip (text token) = lit ".") then lit "PUNCT"
          else if str_isdigit (text token) then lit "NUM"
          else lit "X" in
        Ok (mkDTO lex pos tags)
    end in
  let conllu_token := new_ConlluToken (text token) in
  let conllu_token := set_position conllu_token idx_token in
  Ok (set_morphological_parameters conllu_token morphology).

Fixpoint build_tokens (idx_token : Z) (tokens : list AnalyzerRecord)
    : outcome (list ConlluToken) :=
  match tokens with
  | [] => Ok []
  | token :: rest =>
      let! conllu_token := build_token idx_token token in
      let! conllu_tokens := build_tokens (idx_token + 1)%Z rest in
      Ok (conllu_token :: conllu_tokens)
  end.

(** The loop over [enumerate(sentences)], threading the generator. *)
Fixpoint process_sentences (idx_sent : Z) (sentences : list str)
    (result : list AnalyzerRecord) : outcome (list ConlluSentence) :=
  match sentences with
  | [] => Ok []
  | sentence :: rest =>
      let '(tokens, result') := collect_tokens sentence result [] in
      let tokens := tokens ++ [terminal] in
      let! conllu_tokens := build_tokens 1%Z tokens in
      let conllu_sentence := mkSentence idx_sent sentence conllu_tokens in
      let! conllu_sentences := process_sentences (idx_sent + 1)%Z rest result' in
      Ok (conllu_sentence :: conllu_sentences)
  end.

(** [_process(text)], given what the two external calls return on [text]:
    [sentences = split_by_sentence(text)] and
    [records = self._mystem.analyze(text)]. *)
Definition _process (sentences : list str) (records : list AnalyzerRecord)
    : outcome (list ConlluSentence) :=
  process_sentences 0%Z sentences records.

(** The alignment part of [process_sentences] alone: the list [tokens] of
    every sentence, as it stands after the terminal record is appended
    and before any tag conversion. *)
Fixpoint groups (sentences : list str) (result : list AnalyzerRecord)
    : list (list AnalyzerRecord) :=
  match sentences with
  | [] => []
  | sentence :: rest =>
      let '(tokens, result') := collect_tokens sentence result [] in
      (tokens ++ [terminal]) :: groups rest result'
  end.
End Pipeline.

(** ** A concrete character table and a concrete converter

    The table agrees with the runtime's database on ASCII and on the
    Cyrillic code points U+0400 .. U+045F; every other code point is treated
    as a caseless symbol.  It serves the examples below. *)

#[export] Instance basic_table : UnicodeData := {|
  isalnum c := in_range 48 57 c || in_range 65 90 c || in_range 97 122 c
               || in_range 1024 1119 c;
  isdigit c := in_range 48 57 c;
  isspace c := in_range 9 13 c || in_range 28 32 c;
  tolower_full c :=
    if in_range 65 90 c then [c + 32]
    else if in_range 1024 1039 c then [c + 80]
    else if in_range 1040 1071 c then [c + 32]
    else [c];
  is_cased c := in_range 65 90 c || in_range 97 122 c || in_range 1024 1119 c;
  is_case_ignorable c :=
    (c =? 39) || (c =? 46) || (c =? 58) || (c =? 94) || (c =? 96)
|}.

(** A dict written as its items. *)
Definition dict (items : list (string * string)) : gmap str str :=
  list_to_map (List.map (fun kv => (lit kv.1, lit kv.2)) items).

(** A small table in the shape of mystem_tags_mapping.json.  The code
    [жен] is entered under both Case and Gender, to exercise the precedence
    of the categories. *)
Definition sample_converter : TagConverter := {|
  cat_pos := lit "POS";
  cat_case := lit "Case";
  cat_number := lit "Number";
  cat_gender := lit "Gender";
  cat_animacy := lit "Animacy";
  cat_tense := lit "Tense";
  _tag_mapping := list_to_map [
    (lit "POS", dict [("S", "NOUN"); ("V", "VERB"); ("A", "ADJ")]%string);
    (lit "Case", dict [("им", "Nom"); ("род", "Gen"); ("жен", "Acc")]%string);
    (lit "Number", dict [("ед", "Sing"); ("мн", "Plur")]%string);
    (lit "Gender", dict [("муж", "Masc"); ("жен", "Fem")]%string);
    (lit "Animacy", dict [("од", "Anim"); ("неод", "Inan")]%string);
    (lit "Tense", dict [("непрош", "Pres"); ("прош", "Past")]%string)
  ]
|}.

(** The records of a sentence's share of the stream that enter its group:
    those whose text occurs in the sentence and has an alphanumeric
    character. *)
Definition accepted `{UnicodeData} (sentence : str) (token : AnalyzerRecord) : bool :=
  contains (text token) sentence && any_isalnum (text token).

(** Records as the analyzer emits them: a word it could not analyse, a
    separator (no [analysis] key), an analysed word. *)
Definition word (s : string) : AnalyzerRecord := mkRecord (lit s) (Some []).

Definition plain (s : string) : AnalyzerRecord := mkRecord (lit s) None.

Definition analysed (s lex gr : string) : AnalyzerRecord :=
  mkRecord (lit s) (Some [mkAnalysis (lit lex) (lit gr)]).

(** A two-sentence document and its analysis. *)
Definition demo_sentences : list str := [lit "Кот."; lit "Кот спит."].

Definition demo_records : list AnalyzerRecord :=
  [ analysed "Кот" "кот" "S,муж,од=им,ед"; plain ". ";
    analysed "Кот" "кот" "S,муж,од=им,ед"; plain " ";
    analysed "спит" "спать" "V,несов,нп=непрош,ед,изъяв,3-л"; plain "." ].

Definition demo_output : list ConlluSentence :=
  Eval vm_compute in
    match _process sample_converter demo_sentences demo_records with
    | Ok sents => sents
    | Raise _ => []
    end.

(** A document whose first sentence has more than one word. *)
Definition doc2_sentences : list str := [lit "Кот спит."; lit "Пёс ест."].

Definition doc2_records : list AnalyzerRecord :=
  [ word "Кот"; plain " "; word "спит"; plain ". ";
    word "Пёс"; plain " "; word "ест"; plain "."; mkRecord NL None ].

(** ** What the specification says, where it is compared with the code *)

(** The CONLL-U line of the specification: ten fields joined by tabs. *)
Definition spec_feats (t : ConlluToken) (include_features : bool) : str :=
  if negb include_features || negb (truthy (tags (morphological_parameters t)))
  then lit "_"
  else tags (morphological_parameters t).

Definition spec_conllu_line (t : ConlluToken) (include_features : bool) : str :=
  str_of_int (position t) ++ TAB ++ tok_text t ++ TAB ++
  lemma (morphological_parameters t) ++ TAB ++
  pos (morphological_parameters t) ++ TAB ++ lit "_" ++ TAB ++
  spec_feats t include_features ++ TAB ++ lit "0" ++ TAB ++ lit "root" ++ TAB ++
  lit "_" ++ TAB ++ lit "_".

Definition spec_sentence_block (s : ConlluSentence) (include_features : bool) : str :=
  lit "# sent_id = " ++ str_of_int (sent_position s) ++ NL ++
  lit "# text = " ++ sent_text s ++ NL ++
  join NL (List.map (fun t => spec_conllu_line t include_features) (sent_tokens s)) ++
  NL.

(** The cleaning rule in the specification's words: lowercase, then remove
    every character that is neither alphanumeric nor whitespace. *)
Definition spec_clean_rule `{UnicodeData} (s : str) : str :=
  List.filter (fun c => isalnum c || isspace c) (lower s).

(** The rule [get_cleaned] applies, on a bare string. *)
Definition clean_rule `{UnicodeData} (s : str) : str :=
  List.filter (fun c => isalnum c || (c =? 95) || isspace c) (lower s).

(** The alignment loop of one sentence in the specification's words: the
    occurrence test and the stop test are made on a running copy of the
    sentence text, from which the text of every consumed record is
    removed. *)
Fixpoint spec_collect_tokens `{UnicodeData} (remaining : str)
    (result : list AnalyzerRecord) (tokens : list AnalyzerRecord)
    : list AnalyzerRecord * list AnalyzerRecord :=
  match result with
  | [] => (tokens, [])
  | token :: result' =>
      if negb (contains (text token) remaining)
      then spec_collect_tokens remaining result' tokens
      else
        let remaining' := sub_first (text token) remaining in
        let tokens' :=
          if any_isalnum (text token) then tokens ++ [token] else tokens in
        if negb (any_isalnum remaining')
        then (tokens', result')
        else spec_collect_tokens remaining' result' tokens'
  end.

(** A property of the runtime's character database: the lowercase mapping
    yields only code points that it leaves alone, and never capital
    sigma. *)
Definition lower_stable `{UnicodeData} : Prop :=
  (forall c d, c <> 931 -> d ∈ tolower_full c -> d <> 931 /\ tolower_full d = [d]) /\
  tolower_full 962 = [962] /\ tolower_full 963 = [963].

(** The characters the lowercase mapping leaves alone. *)
Definition lower_fixed `{UnicodeData} (d : char) : Prop :=
  d <> 931 /\ tolower_full d = [d].

(** The tag assignment in the specification's words.  [mapped] is the value
    the table gives a code in a category.  A code goes to the first
    category, in the order of [feature_categories], in which it has an
    entry and which has no value yet; a code without such a category is
    dropped. *)
Definition mapped (tc : TagConverter) (category tag : str) : option str :=
  _tag_mapping tc !! category ≫= (fun m => m !! tag).

Definition earliest_unassigned (tc : TagConverter) (tag : str)
    (format_tags : dict_items) (category value : str) : Prop :=
  exists i,
    feature_categories tc !! i = Some category /\
    mapped tc category tag = Some value /\
    has_key category format_tags = false /\
    forall j category', (j < i)%nat ->
      feature_categories tc !! j = Some category' ->
      mapped tc category' tag = None \/ has_key category' format_tags = true.

Definition no_category_left (tc : TagConverter) (tag : str)
    (format_tags : dict_items) : Prop :=
  forall category, category ∈ feature_categories tc ->
    mapped tc category tag = None \/ has_key category format_tags = true.

Inductive spec_assignment (tc : TagConverter)
    : list str -> dict_items -> dict_items -> Prop :=
  | spec_assign_done format_tags :
      spec_assignment tc [] format_tags format_tags
  | spec_assign_take tag rest format_tags category value format_tags' :
      earliest_unassigned tc tag format_tags category value ->
      spec_assignment tc rest (format_tags ++ [(category, value)]) format_tags' ->
      spec_assignment tc (tag :: rest) format_tags format_tags'
  | spec_assign_drop tag rest format_tags format_tags' :
      no_category_left tc tag format_tags ->
      spec_assignment tc rest format_tags format_tags' ->
      spec_assignment tc (tag :: rest) format_tags format_tags'.

(** The table has a sub-mapping for each of the five feature categories. *)
Definition table_complete (tc : TagConverter) : Prop :=
  forall category, category ∈ feature_categories tc ->
    is_Some (_tag_mapping tc !! category).

(** [a < b] on strings, as a relation. *)
Definition str_lt (a b : str) : Prop := str_compare a b = Lt.

(** The exceptions of the Python runtime, as opposed to the one the
    specification names. *)
Definition builtin_error (e : PyError) : bool :=
  match e with
  | UnknownTagError => false
  | _ => true
  end.

(** ** Further notions used in the statements about [_process] *)

(** A record as emitted when the analyzer has no candidate for it. *)
Definition unanalysed (token : AnalyzerRecord) : Prop :=
  analysis token = None \/ analysis token = Some [].

(** The tag conversion of the first analysis candidate of [token] raises
    [e]: [convert_pos] does, or it returns and
    [convert_morphological_tags] does. *)
Definition conversion_fails (tc : TagConverter) (token : AnalyzerRecord)
    (e : PyError) : Prop :=
  exists first rest,
    analysis token = Some (first :: rest) /\
    (convert_pos tc (gr first) = Raise e \/
     exists p, convert_pos tc (gr first) = Ok p /\
               convert_morphological_tags tc (gr first) = Raise e).

(** The record with every analysis candidate but the first removed. *)
Definition keep_first (token : AnalyzerRecord) : AnalyzerRecord :=
  mkRecord (text token) (take 1 <$> analysis token).

(** The three POS labels of tokens without analysis. *)
Definition fallback_labels : list str := [lit "PUNCT"; lit "NUM"; lit "X"].

(** The stop test of the loop of [_process] never succeeds on [token]. *)
Definition never_stops `{UnicodeData} (sentence : str) (token : AnalyzerRecord) : Prop :=
  contains (text token) sentence = true ->
  any_isalnum (sub_first (text token) sentence) = true.

(** ** The remaining methods of the token and sentence model *)

(** [ConlluToken.get_morphological_parameters] *)
Definition get_morphological_parameters (t : ConlluToken) : MorphologicalTokenDTO :=
  morphological_parameters t.

(** [ConlluSentence.get_tokens] *)
Definition get_tokens (s : ConlluSentence) : list ConlluToken := sent_tokens s.

(** The loop of [ConlluSentence.get_cleaned_sentence]; [sentence] is the
    string built so far. *)
Fixpoint cleaned_loop `{UnicodeData} (tokens : list ConlluToken) (sentence : str) : str :=
  match tokens with
  | [] => sentence
  | token :: rest =>
      let cleaned_token := get_cleaned token in
      if truthy cleaned_token
      then cleaned_loop rest (sentence ++ (cleaned_token ++ lit " "))
      else cleaned_loop rest sentence
  end.

(** [ConlluSentence.get_cleaned_sentence] *)
Definition get_cleaned_sentence `{UnicodeData} (s : ConlluSentence) : str :=
  strip (cleaned_loop (sent_tokens s) []).

(** No field of the token holds a tab. *)
Definition tab_free (t : ConlluToken) : Prop :=
  (9 ∉ tok_text t) /\
  (9 ∉ lemma (morphological_parameters t)) /\
  (9 ∉ pos (morphological_parameters t)) /\
  (9 ∉ tags (morphological_parameters t)).

(** The number of occurrences of a character in a string. *)
Definition count_char (c : char) (s : str) : nat := count_occ N.eq_dec s c.

(** ** CorpusManager *)

(** The exceptions of [_validate_dataset]: the built-in ones it raises
    itself or lets through from [file.stat()] (FileNotFoundError on a
    dangling symbolic link, PermissionError, another OSError), the two of
    the module, and the ValueError of [int] and [str.index]. *)
Inductive DatasetError :=
  | FileNotFoundError
  | NotADirectoryError
  | EmptyDirectoryError
  | InconsistentDatasetError
  | ValueError
  | PermissionError
  | OSError.

(** What [file.stat()] does on an entry: it returns, and [st_size] is read
    from the result, or it raises. *)
Inductive StatResult :=
  | Stat (st_size : N)
  | StatRaises (e : DatasetError).

(** What the file system shows at [path_to_raw_txt_data]: nothing, something
    that is not a directory, or a directory with its entries in the order
    the system lists them.  Of an entry, the name and what [stat()] does on
    it matter. *)
Record DirEntry := mkEntry {
  entry_name : str;
  stat : StatResult
}.

Inductive PathState :=
  | Missing
  | NotDirectory
  | Directory (entries : list DirEntry).

Inductive checked (A : Type) :=
  | Done (a : A)
  | Fails (e : DatasetError).
Arguments Done {A} a.
Arguments Fails {A} e.

Definition checked_bind {A B} (r : checked A) (k : A -> checked B) : checked B :=
  match r with
  | Done a => k a
  | Fails e => Fails e
  end.

Notation "'let?' x ':=' r 'in' k" := (checked_bind r (fun x => k))
  (at level 10, x name, r at level 100, k at level 200).

(** [s.endswith(suffix)] *)
Definition endswith (suffix s : str) : bool :=
  startswith (reverse suffix) (reverse s).

(** [path.glob('*' + suffix)]: the entries whose name ends with [suffix]. *)
Definition glob_star (suffix : string) (entries : list DirEntry) : list DirEntry :=
  List.filter (fun file => endswith (lit suffix) (entry_name file)) entries.

(** [s.index(c)], [None] standing for its ValueError. *)
Fixpoint index (c : char) (s : str) : option nat :=
  match s with
  | [] => None
  | x :: s' => if x =? c then Some 0%nat else S <$> index c s'
  end.

(** [sorted(ids)] on ints. *)
Fixpoint insert_int (x : Z) (l : list Z) : list Z :=
  match l with
  | [] => [x]
  | y :: l' => if (y <? x)%Z then y :: insert_int x l' else x :: y :: l'
  end.

Definition sorted_ints (l : list Z) : list Z := foldr insert_int [] l.

(** [list(range(1, n + 1))] *)
Definition range_from_1 (n : nat) : list Z := List.map Z.of_nat (seq 1 n).

(** The loops [if not file.stat().st_size: raise InconsistentDatasetError]:
    file after file, the error of [stat()] goes through, and a size of 0
    raises. *)
Fixpoint check_sizes (files : list DirEntry) : checked unit :=
  match files with
  | [] => Done tt
  | file :: rest =>
      match stat file with
      | StatRaises e => Fails e
      | Stat st_size =>
          if st_size =? 0 then Fails InconsistentDatasetError
          else check_sizes rest
      end
  end.

(** [file.stat().st_size] returns and is not 0. *)
Definition sized (file : DirEntry) : Prop :=
  exists st_size, stat file = Stat st_size /\ st_size <> 0.

Section CorpusManager.
(** [int(s)] of the runtime on a str, [None] standing for its ValueError. *)
Variable int : str -> option Z.

(** [int(file.name[:file.name.index('_')])] *)
Definition entry_id (file : DirEntry) : checked Z :=
  match index 95 (entry_name file) with
  | None => Fails ValueError
  | Some i =>
      match int (take i (entry_name file)) with
      | None => Fails ValueError
      | Some id => Done id
      end
  end.

Fixpoint entry_ids (files : list DirEntry) : checked (list Z) :=
  match files with
  | [] => Done []
  | file :: rest =>
      let? id := entry_id file in
      let? ids := entry_ids rest in
      Done (id :: ids)
  end.

(** [CorpusManager._validate_dataset] *)
Definition _validate_dataset (path_to_raw_txt_data : PathState) : checked unit :=
  match path_to_raw_txt_data with
  | Missing => Fails FileNotFoundError
  | NotDirectory => Fails NotADirectoryError
  | Directory [] => Fails EmptyDirectoryError
  | Directory entries =>
      let raw_files := glob_star "_raw.txt" entries in
      let meta_files := glob_star "_meta.json" entries in
      if negb (length meta_files =? length raw_files)%nat
      then Fails InconsistentDatasetError
      else
        let? _ := check_sizes raw_files in
        let? _ := check_sizes meta_files in
        let? list_of_raw_ids := entry_ids raw_files in
        let? list_of_meta_ids := entry_ids meta_files in
        if negb (bool_decide (sorted_ints list_of_raw_ids =
                              range_from_1 (length list_of_raw_ids)))
        then Fails InconsistentDatasetError
        else if negb (bool_decide (sorted_ints list_of_meta_ids =
                                   range_from_1 (length list_of_meta_ids)))
        then Fails InconsistentDatasetError
        else Done tt
  end.
End CorpusManager.

(** [int] on the strings of ASCII digits, where it is the decimal value.
    The runtime's [int] accepts more (a sign, blanks around the number,
    other decimal digits); this function rejects them. *)
Definition int_of_digits (s : str) : option Z :=
  match s with
  | [] => None
  | _ =>
      if forallb (in_range 48 57) s
      then Some (Z.of_N (fold_left (fun acc c => acc * 10 + (c - 48)) s 0))
      else None
  end.

Definition file (name : string) (size : N) : DirEntry :=
  mkEntry (lit name) (Stat size).

(** A dataset of two articles, with a stray file. *)
Definition sample_directory : PathState :=
  Directory [ file "2_raw.txt" 120; file "1_meta.json" 64; file "notes.md" 0;
              file "1_raw.txt" 300; file "2_meta.json" 51 ].

(** ** Articles, the storage of CorpusManager, and the run of the pipeline *)

(** core_utils.article.Article, reduced to what the module reads and
    writes: the raw text, and the sentences [set_conllu_sentences]
    stores. *)
Record Article := mkArticle {
  article_text : str;
  article_conllu_sentences : list ConlluSentence
}.

Definition set_conllu_sentences (article : Article) (sentences : list ConlluSentence)
    : Article :=
  mkArticle (article_text article) sentences.

(** The entries [glob] finds at the path; none unless it is a directory. *)
Definition entries_of (path : PathState) : list DirEntry :=
  match path with
  | Directory entries => entries
  | _ => []
  end.

Section Storage.
Variable int : str -> option Z.
(** core_utils: [get_article_id_from_filepath] and [from_raw], as functions
    of the file. *)
Variable get_article_id_from_filepath : DirEntry -> Z.
Variable from_raw : DirEntry -> Article.

(** [CorpusManager._scan_dataset], from the storage it finds. *)
Definition _scan_dataset (path : PathState) (_storage : gmap Z Article)
    : gmap Z Article :=
  foldl (fun storage file =>
           <[get_article_id_from_filepath file := from_raw file]> storage)
        _storage (glob_star "_raw.txt" (entries_of path)).

(** [CorpusManager(path)]: the storage of the new object, or the error of
    the validation. *)
Definition CorpusManager (path_to_raw_txt_data : PathState) : checked (gmap Z Article) :=
  let _storage := ∅ in
  let? _ := _validate_dataset int path_to_raw_txt_data in
  Done (_scan_dataset path_to_raw_txt_data _storage).

(** [CorpusManager.get_articles] *)
Definition get_articles (_storage : gmap Z Article) : gmap Z Article := _storage.
End Storage.

(** What [run] hands to the writers of core_utils, in order. *)
Inductive Output :=
  | ToCleaned (article : Article)
  | ToConllu (article : Article) (include_morphological_tags : bool).

Section Run.
Context `{UnicodeData}.
Variable tag_converter : TagConverter.
(** The two external calls of [_process], as functions of the text. *)
Variable split_by_sentence : str -> list str.
Variable analyze : str -> list AnalyzerRecord.

(** [self._process(text)] *)
Definition process_text (text : str) : outcome (list ConlluSentence) :=
  _process tag_converter (split_by_sentence text) (analyze text).

(** The three calls that follow [_process] for one article. *)
Definition outputs_of (article : Article) : list Output :=
  [ToCleaned article; ToConllu article false; ToConllu article true].

(** [MorphologicalAnalysisPipeline.run] over the articles of the corpus, in
    the order of [get_articles().values()]: what was handed to the writers,
    and how the run ended. *)
Fixpoint run (articles : list Article) : list Output * outcome unit :=
  match articles with
  | [] => ([], Ok tt)
  | article :: rest =>
      match process_text (article_text article) with
      | Raise e => ([], Raise e)
      | Ok sentences =>
          let article := set_conllu_sentences article sentences in
          let '(written, ending) := run rest in
          (outputs_of article ++ written, ending)
      end
  end.
End Run.

(** Stand-ins for the two functions of core_utils in the examples: the id
    is the number before the first underscore of the name, the article
    has the name of its file for text. *)
Definition sample_id (f : DirEntry) : Z :=
  match entry_id int_of_digits f with
  | Done id => id
  | Fails _ => 0%Z
  end.

Definition sample_from_raw (f : DirEntry) : Article := mkArticle (entry_name f) [].

(** The token [t] carries what [_process] derives from the record [r]: the
    record's text; with an analysis, the lemma of the first candidate and
    the converted POS and features of its tag string; without one, the
    text as lemma, no features and the fallback label. *)
Definition built_from `{UnicodeData} (tc : TagConverter) (r : AnalyzerRecord)
    (t : ConlluToken) : Prop :=
  tok_text t = text r /\
  match analysis r with
  | Some (first :: _) =>
      lemma (morphological_parameters t) = lex first /\
      convert_pos tc (gr first) = Ok (pos (morphological_parameters t)) /\
      convert_morphological_tags tc (gr first) = Ok (tags (morphological_parameters t))
  | _ =>
      lemma (morphological_parameters t) = text r /\
      tags (morphological_parameters t) = [] /\
      pos (morphological_parameters t) =
        (if bool_decide (strip (text r) = lit ".") then lit "PUNCT"
         else if str_isdigit (text r) then lit "NUM" else lit "X")
  end.

(** ** The shares of the stream *)

(** [chunk] is what the loop of [sentence] reads of a stream [chunk ++ rest]:
    it ends with the first record that passes the stop test, or, no record
    passing it, it is the whole stream. *)
Definition share_of `{UnicodeData} (sentence : str)
    (chunk rest : list AnalyzerRecord) : Prop :=
  (exists before token,
     chunk = before ++ [token] /\
     Forall (never_stops sentence) before /\
     contains (text token) sentence = true /\
     any_isalnum (sub_first (text token) sentence) = false) \/
  (Forall (never_stops sentence) chunk /\ rest = []).

(** The stream [result] is cut into the shares [chunks] of the sentences,
    one after the other, and [leftover]. *)
Fixpoint partitioned `{UnicodeData} (sentences : list str)
    (result : list AnalyzerRecord) (chunks : list (list AnalyzerRecord))
    (leftover : list AnalyzerRecord) : Prop :=
  match sentences, chunks with
  | [], [] => result = leftover
  | sentence :: sentences', chunk :: chunks' =>
      exists result',
        result = chunk ++ result' /\
        share_of sentence chunk result' /\
        partitioned sentences' result' chunks' leftover
  | _, _ => False
  end.

(** * Theorems *)

(** ** The token and sentence model *)

Lemma get_conllu_text_spec t b : get_conllu_text t b = spec_conllu_line t b.
Proof.
  unfold get_conllu_text, spec_conllu_line, spec_feats.
  destruct b, (tags (morphological_parameters t)); reflexivity.
Qed.

(** C8. For every token and either value of the flag, the rendered line is
    the ten fields position, text, lemma, POS, [_], features-or-[_], [0],
    [root], [_], [_] joined by tabs, the features field being [_] when the
    flag is false or the features are empty; a sentence's block is the
    [# sent_id] line, the [# text] line, the token lines joined by
    newlines, and a final newline. *)
Theorem conllu_rendering_format :
  (forall t b, get_conllu_text t b = spec_conllu_line t b) /\
  (forall t, spec_feats t false = lit "_") /\
  (forall text l p n b, spec_feats (mkToken text (mkDTO l p []) n) b = lit "_") /\
  (forall text l p c feats n,
     spec_feats (mkToken text (mkDTO l p (c :: feats)) n) true = c :: feats) /\
  (forall s b, sentence_conllu_text s b = spec_sentence_block s b).
Proof.
  split; [exact get_conllu_text_spec|].
  split; [reflexivity|].
  split; [intros text l p n []; reflexivity|].
  split; [reflexivity|].
  intros s b. unfold sentence_conllu_text, spec_sentence_block, _format_tokens.
  rewrite (List.map_ext _ _ (fun t => get_conllu_text_spec t b)).
  reflexivity.
Qed.

(** C10. A freshly constructed token has position 0 and empty lemma, POS
    and tags; rendered before anything is set, its line has the position
    field [0] and empty lemma and POS fields. *)
Theorem fresh_token_defaults (text : str) :
  position (new_ConlluToken text) = 0%Z /\
  lemma (morphological_parameters (new_ConlluToken text)) = [] /\
  pos (morphological_parameters (new_ConlluToken text)) = [] /\
  tags (morphological_parameters (new_ConlluToken text)) = [] /\
  (forall b, get_conllu_text (new_ConlluToken text) b =
     lit "0" ++ TAB ++ text ++ TAB ++ [] ++ TAB ++ [] ++ TAB ++ lit "_" ++ TAB ++
     lit "_" ++ TAB ++ lit "0" ++ TAB ++ lit "root" ++ TAB ++ lit "_" ++ TAB ++ lit "_") /\
  (position (new_ConlluToken text) <? 1)%Z = true.
Proof.
  repeat split; try reflexivity.
  intros []; reflexivity.
Qed.

(** ** Building the tokens of a sentence *)

Section BuildTokens.
Context `{UnicodeData}.
Variable tc : TagConverter.

Lemma bind_Ok {A B} (r : outcome A) (k : A -> outcome B) b :
  bind r k = Ok b -> exists a, r = Ok a /\ k a = Ok b.
Proof. destruct r; simpl; [eauto|discriminate]. Qed.

Lemma build_token_Ok idx token t :
  build_token tc idx token = Ok t ->
  position t = idx /\ tok_text t = text token.
Proof.
  unfold build_token. intros Hb.
  apply bind_Ok in Hb as (m & _ & Hb). injection Hb as <-. split; reflexivity.
Qed.

(** A record without analysis takes the fallback branch, which cannot
    fail: the lemma is the surface text and the tags are empty. *)
Lemma build_token_no_analysis idx token :
  analysis token = None \/ analysis token = Some [] ->
  exists p, build_token tc idx token =
            Ok (mkToken (text token) (mkDTO (text token) p []) idx).
Proof.
  unfold build_token. intros [-> | ->]; simpl; eauto.
Qed.

Lemma build_tokens_Ok idx tokens cts :
  build_tokens tc idx tokens = Ok cts ->
  Forall2 (fun token t => build_token tc (position t) token = Ok t) tokens cts /\
  forall i t, cts !! i = Some t -> position t = (idx + Z.of_nat i)%Z.
Proof.
  revert idx cts. induction tokens as [|token rest IH]; intros idx cts Hb; simpl in Hb.
  - injection Hb as <-. split; [constructor|]. intros i t Hi. destruct i; discriminate.
  - apply bind_Ok in Hb as (ct & Hct & Hb).
    apply bind_Ok in Hb as (cts' & Hcts & Hb). injection Hb as <-.
    destruct (IH _ _ Hcts) as [IH1 IH2].
    destruct (build_token_Ok _ _ _ Hct) as [Hp _].
    split.
    + constructor; [rewrite Hp; exact Hct | exact IH1].
    + intros [|i] t Hi; simpl in Hi.
      * injection Hi as <-. lia.
      * rewrite (IH2 _ _ Hi). lia.
Qed.

Lemma build_tokens_app_Ok idx front last cts :
  build_tokens tc idx (front ++ [last]) = Ok cts ->
  exists cfront clast,
    cts = cfront ++ [clast] /\ length cfront = length front /\
    build_token tc (idx + Z.of_nat (length front))%Z last = Ok clast.
Proof.
  revert idx cts. induction front as [|token rest IH]; intros idx cts Hb; simpl in Hb.
  - apply bind_Ok in Hb as (ct & Hct & Hb). simpl in Hb. injection Hb as <-.
    exists [], ct. repeat split. simpl. rewrite Z.add_0_r. exact Hct.
  - apply bind_Ok in Hb as (ct & Hct & Hb).
    apply bind_Ok in Hb as (cts' & Hcts & Hb). injection Hb as <-.
    destruct (IH _ _ Hcts) as (cfront & clast & -> & Hlen & Hlast).
    exists (ct :: cfront), clast. repeat split.
    + simpl. lia.
    + replace (idx + Z.of_nat (length (token :: rest)))%Z
        with (idx + 1 + Z.of_nat (length rest))%Z by (simpl length; lia).
      exact Hlast.
Qed.

(** A failing token makes the whole sentence fail. *)
Lemma build_tokens_Raise idx tokens token e :
  token ∈ tokens -> (forall i, build_token tc i token = Raise e) ->
  exists e', build_tokens tc idx tokens = Raise e'.
Proof.
  intros Hin Hfail. revert idx.
  induction tokens as [|token' rest IH]; intros idx; [inversion Hin|].
  simpl. destruct (build_token tc idx token') as [ct|e0] eqn:Hct; [|eauto].
  simpl. apply elem_of_cons in Hin as [->|Hin].
  - rewrite Hfail in Hct. discriminate.
  - destruct (IH Hin (idx + 1)%Z) as [e' ->]. eauto.
Qed.

Lemma process_sentences_Ok idx sentences result sents :
  process_sentences tc idx sentences result = Ok sents ->
  Forall2 (fun sentence s => sent_text s = sentence) sentences sents /\
  Forall2 (fun tokens s => build_tokens tc 1 tokens = Ok (sent_tokens s))
          (groups sentences result) sents /\
  forall i s, sents !! i = Some s -> sent_position s = (idx + Z.of_nat i)%Z.
Proof.
  revert idx result sents.
  induction sentences as [|sentence rest IH]; intros idx result sents Hp; simpl in Hp.
  - injection Hp as <-. repeat split; try constructor.
    intros i s Hi; destruct i; discriminate.
  - simpl. destruct (collect_tokens sentence result []) as [tokens result'].
    apply bind_Ok in Hp as (cts & Hcts & Hp).
    apply bind_Ok in Hp as (sents' & Hsents & Hp). injection Hp as <-.
    destruct (IH _ _ _ Hsents) as (IH1 & IH2 & IH3).
    repeat split.
    + constructor; [reflexivity|exact IH1].
    + constructor; [exact Hcts|exact IH2].
    + intros [|i] s Hi; simpl in Hi.
      * injection Hi as <-. simpl. lia.
      * rewrite (IH3 _ _ Hi). lia.
Qed.

Lemma process_sentences_Raise idx sentences result tokens e :
  tokens ∈ groups sentences result ->
  build_tokens tc 1 tokens = Raise e ->
  exists e', process_sentences tc idx sentences result = Raise e'.
Proof.
  revert idx result.
  induction sentences as [|sentence rest IH]; intros idx result Hin Hb; simpl in *.
  - inversion Hin.
  - destruct (collect_tokens sentence result []) as [tokens0 result'].
    apply elem_of_cons in Hin as [<-|Hin].
    + rewrite Hb. simpl. eauto.
    + destruct (build_tokens tc 1 (tokens0 ++ [terminal])); simpl; [|eauto].
      destruct (IH (idx + 1)%Z _ Hin Hb) as [e' ->]. simpl. eauto.
Qed.
End BuildTokens.

(** ** The alignment loop *)

Section Alignment.
Context `{UnicodeData}.

Lemma filter_accepted_cons sentence token l :
  List.filter (accepted sentence) (token :: l) =
  if contains (text token) sentence && any_isalnum (text token)
  then token :: List.filter (accepted sentence) l
  else List.filter (accepted sentence) l.
Proof. reflexivity. Qed.

(** One sentence reads a prefix [consumed] of the generator, keeps the
    accepted records of that prefix in their order, and leaves the rest
    of the generator untouched. *)
Lemma collect_tokens_prefix sentence result tokens :
  exists consumed,
    result = consumed ++ (collect_tokens sentence result tokens).2 /\
    (collect_tokens sentence result tokens).1 =
      tokens ++ List.filter (accepted sentence) consumed.
Proof.
  revert tokens. induction result as [|token result' IH]; intros tokens; simpl.
  - exists []. split; [reflexivity|]. simpl. by rewrite app_nil_r.
  - destruct (contains (text token) sentence) eqn:Hin; simpl.
    + destruct (any_isalnum (sub_first (text token) sentence)); simpl.
      * destruct (IH (if any_isalnum (text token) then tokens ++ [token] else tokens))
          as (consumed & Hres & Htok).
        exists (token :: consumed). split; [simpl; congruence|].
        rewrite Htok, filter_accepted_cons, Hin. simpl.
        destruct (any_isalnum (text token)); [by rewrite <- app_assoc|reflexivity].
      * exists [token]. split; [reflexivity|].
        rewrite filter_accepted_cons, Hin. simpl.
        destruct (any_isalnum (text token)); [reflexivity|by rewrite app_nil_r].
    + destruct (IH tokens) as (consumed & Hres & Htok).
      exists (token :: consumed). split; [simpl; congruence|].
      by rewrite Htok, filter_accepted_cons, Hin.
Qed.

(** A record whose text does not occur in the sentence is read and
    dropped: the loop goes on as if it had not been in the stream. *)
Lemma collect_tokens_skip sentence token result tokens :
  contains (text token) sentence = false ->
  collect_tokens sentence (token :: result) tokens =
  collect_tokens sentence result tokens.
Proof. intros Hin. simpl. by rewrite Hin. Qed.

(** The whole document: the stream splits into one chunk per sentence, in
    order, followed by what no sentence read; the group of a sentence is
    made of the accepted records of its own chunk and the terminal
    record. *)
Lemma groups_partition sentences result :
  exists chunks leftover,
    result = concat chunks ++ leftover /\
    length chunks = length sentences /\
    groups sentences result =
      zip_with (fun sentence chunk =>
                  List.filter (accepted sentence) chunk ++ [terminal])
               sentences chunks.
Proof.
  revert result. induction sentences as [|sentence rest IH]; intros result; simpl.
  - exists [], result. repeat split.
  - destruct (collect_tokens_prefix sentence result []) as (consumed & Hres & Htok).
    destruct (collect_tokens sentence result []) as [tokens result']. simpl in *.
    destruct (IH result') as (chunks & leftover & Hres' & Hlen & Hg).
    exists (consumed :: chunks), leftover. repeat split.
    + simpl. rewrite <- app_assoc, <- Hres'. exact Hres.
    + simpl. by rewrite Hlen.
    + simpl. by rewrite Hg, Htok.
Qed.

(** Every group ends with the terminal record, and the records before it
    are records of the stream. *)
Lemma groups_terminal sentences result :
  Forall (fun tokens => exists matched,
            tokens = matched ++ [terminal] /\ Forall (fun r => r ∈ result) matched)
         (groups sentences result).
Proof.
  destruct (groups_partition sentences result) as (chunks & leftover & -> & Hlen & ->).
  clear Hlen. generalize leftover. clear leftover.
  revert sentences. induction chunks as [|chunk chunks IH]; intros sentences leftover.
  - destruct sentences; constructor.
  - destruct sentences as [|sentence rest]; simpl; constructor.
    + exists (List.filter (accepted sentence) chunk). split; [reflexivity|].
      apply Forall_forall. intros r Hr.
      apply list_elem_of_In, List.filter_In in Hr as [Hr _].
      apply list_elem_of_In in Hr. simpl. rewrite !elem_of_app. tauto.
    + rewrite <- app_assoc.
      eapply Forall_impl; [apply (IH rest (leftover))|].
      simpl. intros tokens (matched & -> & Hm). exists matched. split; [reflexivity|].
      eapply Forall_impl; [exact Hm|]. simpl. intros r.
      rewrite !elem_of_app. tauto.
Qed.

Lemma groups_length sentences result :
  length (groups sentences result) = length sentences.
Proof.
  revert result. induction sentences as [|sentence rest IH]; intros result; simpl.
  - reflexivity.
  - destruct (collect_tokens sentence result []). simpl. by rewrite IH.
Qed.
End Alignment.

(** ** Sentences returned by [_process] *)

Example demo_process :
  _process sample_converter demo_sentences demo_records = Ok demo_output.
Proof. vm_compute. reflexivity. Qed.

Example demo_conllu :
  List.map (fun s => sentence_conllu_text s true) demo_output =
  [ lit "# sent_id = 0" ++ NL ++ lit "# text = Кот." ++ NL ++
    lit "1" ++ TAB ++ lit "Кот" ++ TAB ++ lit "кот" ++ TAB ++ lit "NOUN" ++ TAB ++
    lit "_" ++ TAB ++ lit "Animacy=Anim|Case=Nom|Gender=Masc|Number=Sing" ++ TAB ++
    lit "0" ++ TAB ++ lit "root" ++ TAB ++ lit "_" ++ TAB ++ lit "_" ++ NL ++
    lit "2" ++ TAB ++ lit "." ++ TAB ++ lit "." ++ TAB ++ lit "PUNCT" ++ TAB ++
    lit "_" ++ TAB ++ lit "_" ++ TAB ++
    lit "0" ++ TAB ++ lit "root" ++ TAB ++ lit "_" ++ TAB ++ lit "_" ++ NL;
    lit "# sent_id = 1" ++ NL ++ lit "# text = Кот спит." ++ NL ++
    lit "1" ++ TAB ++ lit "Кот" ++ TAB ++ lit "кот" ++ TAB ++ lit "NOUN" ++ TAB ++
    lit "_" ++ TAB ++ lit "Animacy=Anim|Case=Nom|Gender=Masc|Number=Sing" ++ TAB ++
    lit "0" ++ TAB ++ lit "root" ++ TAB ++ lit "_" ++ TAB ++ lit "_" ++ NL ++
    lit "2" ++ TAB ++ lit "спит" ++ TAB ++ lit "спать" ++ TAB ++ lit "VERB" ++ TAB ++
    lit "_" ++ TAB ++ lit "Number=Sing|Tense=Pres" ++ TAB ++
    lit "0" ++ TAB ++ lit "root" ++ TAB ++ lit "_" ++ TAB ++ lit "_" ++ NL ++
    lit "3" ++ TAB ++ lit "." ++ TAB ++ lit "." ++ TAB ++ lit "PUNCT" ++ TAB ++
    lit "_" ++ TAB ++ lit "_" ++ TAB ++
    lit "0" ++ TAB ++ lit "root" ++ TAB ++ lit "_" ++ TAB ++ lit "_" ++ NL ].
Proof. vm_compute. reflexivity. Qed.

(** C5. In every sentence returned by [_process], the i-th token (counting
    from 1) has position i. *)
Theorem token_positions_sequential `{UnicodeData} tc sentences records sents :
  _process tc sentences records = Ok sents ->
  Forall (fun s => forall i t, sent_tokens s !! i = Some t ->
                               position t = (Z.of_nat i + 1)%Z) sents.
Proof.
  intros Hp. apply process_sentences_Ok in Hp as (_ & Hg & _).
  induction Hg as [|tokens s gs sents' Hb _ IH]; constructor; [|exact IH].
  intros i t Hi. apply build_tokens_Ok in Hb as [_ Hpos].
  rewrite (Hpos _ _ Hi). lia.
Qed.

Lemma token_positions_sequential_witness :
  _process sample_converter demo_sentences demo_records = Ok demo_output /\
  Forall (fun s => forall i t, sent_tokens s !! i = Some t ->
                               position t = (Z.of_nat i + 1)%Z) demo_output.
Proof.
  split; [vm_compute; reflexivity|].
  apply (token_positions_sequential sample_converter demo_sentences demo_records).
  vm_compute. reflexivity.
Defined.

Lemma build_tokens_texts `{UnicodeData} tc idx tokens cts :
  build_tokens tc idx tokens = Ok cts ->
  List.map tok_text cts = List.map text tokens.
Proof.
  intros Hb. apply build_tokens_Ok in Hb as [Hf _].
  induction Hf as [|token t tokens' cts' Ht _ IH]; [reflexivity|].
  simpl. apply build_token_Ok in Ht as [_ ->]. by rewrite IH.
Qed.

(** With the stream exhausted, every sentence still gets its terminal
    token, and no conversion can fail. *)
Lemma process_sentences_exhausted `{UnicodeData} tc idx sentences :
  exists sents,
    process_sentences tc idx sentences [] = Ok sents /\
    length sents = length sentences /\
    Forall (fun s => exists last,
              sent_tokens s = [last] /\ tok_text last = lit "." /\
              lemma (morphological_parameters last) = lit "." /\
              tags (morphological_parameters last) = [] /\
              position last = 1%Z) sents.
Proof.
  revert idx. induction sentences as [|sentence rest IH]; intros idx.
  - exists []. repeat split. constructor.
  - cbn [process_sentences collect_tokens app build_tokens].
    destruct (build_token_no_analysis tc 1 terminal (or_introl eq_refl)) as [p Hp].
    rewrite Hp. simpl. destruct (IH (idx + 1)%Z) as (sents & -> & Hlen & Hall). simpl.
    eexists. split; [reflexivity|]. split; [simpl; by rewrite Hlen|].
    constructor; [|exact Hall]. simpl. eexists. repeat split.
Qed.

(** C4. Every sentence returned by [_process] has a non-empty token list:
    its tokens are built from the records matched for the sentence followed
    by exactly one terminal record, whose token has the text and the lemma
    [.], no features, and the last position; with the stream exhausted and
    nothing matched, the terminal token is the sentence's only token. *)
Theorem terminal_token_appended `{UnicodeData} tc sentences records sents :
  _process tc sentences records = Ok sents ->
  length sents = length sentences /\
  Forall2 (fun tokens s =>
             sent_tokens s <> [] /\
             exists matched front last,
               tokens = matched ++ [terminal] /\
               Forall (fun r => r ∈ records) matched /\
               sent_tokens s = front ++ [last] /\
               length front = length matched /\
               tok_text last = lit "." /\
               lemma (morphological_parameters last) = lit "." /\
               tags (morphological_parameters last) = [] /\
               position last = Z.of_nat (length (sent_tokens s)))
          (groups sentences records) sents /\
  exists sents0,
    _process tc sentences [] = Ok sents0 /\
    length sents0 = length sentences /\
    Forall (fun s => exists last,
              sent_tokens s = [last] /\ tok_text last = lit "." /\
              lemma (morphological_parameters last) = lit "." /\
              tags (morphological_parameters last) = [] /\
              position last = 1%Z) sents0.
Proof.
  intros Hp. apply process_sentences_Ok in Hp as (Ht & Hg & _).
  split; [symmetry; exact (Forall2_length _ _ _ Ht)|].
  split; [|apply process_sentences_exhausted].
  pose proof (groups_terminal sentences records) as Hterm.
  clear Ht. induction Hg as [|tokens s gs sents' Hb _ IH]; [constructor|].
  apply Forall_cons in Hterm as [(matched & -> & Hm) Hterm].
  constructor; [|exact (IH Hterm)].
  apply build_tokens_app_Ok in Hb as (front & last & Hs & Hlen & Hlast).
  destruct (build_token_no_analysis tc (1 + Z.of_nat (length matched)) terminal
              (or_introl eq_refl)) as [p Hp].
  rewrite Hp in Hlast. injection Hlast as <-.
  split; [rewrite Hs; by destruct front|].
  exists matched, front, (mkToken (text terminal) (mkDTO (text terminal) p [])
                            (1 + Z.of_nat (length matched))).
  repeat split; try assumption.
  simpl. rewrite Hs, length_app, Hlen. simpl. lia.
Qed.

Lemma terminal_token_appended_witness :
  _process sample_converter demo_sentences demo_records = Ok demo_output /\
  length demo_output = length demo_sentences /\
  List.map (fun s => List.map tok_text (sent_tokens s)) demo_output =
    [[lit "Кот"; lit "."]; [lit "Кот"; lit "спит"; lit "."]].
Proof.
  split; [vm_compute; reflexivity|].
  split; [|vm_compute; reflexivity].
  apply (terminal_token_appended sample_converter demo_sentences demo_records).
  vm_compute. reflexivity.
Defined.

(** Where no record of the stream passes the stop test, the sentence reads
    the stream to its end: it keeps every accepted record and leaves
    nothing to the sentences after it. *)
Lemma collect_tokens_reads_all `{UnicodeData} sentence result tokens :
  Forall (fun token => contains (text token) sentence = true ->
                       any_isalnum (sub_first (text token) sentence) = true) result ->
  collect_tokens sentence result tokens =
    (tokens ++ List.filter (accepted sentence) result, []).
Proof.
  intros Hall. revert tokens.
  induction Hall as [|token result Htok _ IH]; intros tokens; simpl.
  - by rewrite app_nil_r.
  - unfold accepted at 1.
    destruct (contains (text token) sentence) eqn:Hin; simpl.
    + rewrite (Htok eq_refl). simpl. rewrite IH.
      destruct (any_isalnum (text token)); [by rewrite <- app_assoc|reflexivity].
    + apply IH.
Qed.

(** *** The shares of the stream are determined by the stop test *)

Section Shares.
Context `{UnicodeData}.

Lemma never_stops_skipped sentence token :
  contains (text token) sentence = false -> never_stops sentence token.
Proof. unfold never_stops. congruence. Qed.

Lemma collect_tokens_share sentence result tokens :
  exists chunk,
    result = chunk ++ (collect_tokens sentence result tokens).2 /\
    share_of sentence chunk (collect_tokens sentence result tokens).2.
Proof.
  revert tokens. induction result as [|token result' IH]; intros tokens.
  - exists []. split; [reflexivity|]. right. split; [constructor|reflexivity].
  - cbn [collect_tokens].
    destruct (contains (text token) sentence) eqn:Hin; cbn [negb].
    + destruct (any_isalnum (sub_first (text token) sentence)) eqn:Hstop; cbn [negb].
      * destruct (IH (if any_isalnum (text token) then tokens ++ [token] else tokens))
          as (chunk & Hres & Hshare).
        exists (token :: chunk). split; [simpl; congruence|].
        assert (Htok : never_stops sentence token) by (intros _; exact Hstop).
        destruct Hshare as [(before & t & -> & Hb & Ht)|[Hall Hrest]].
        -- left. exists (token :: before), t. split; [reflexivity|].
           split; [by constructor|exact Ht].
        -- right. split; [by constructor|exact Hrest].
      * exists [token]. split; [reflexivity|]. left. exists [], token.
        split; [reflexivity|]. split; [constructor|by split].
    + destruct (IH tokens) as (chunk & Hres & Hshare).
      exists (token :: chunk). split; [simpl; congruence|].
      pose proof (never_stops_skipped sentence token Hin) as Htok.
      destruct Hshare as [(before & t & -> & Hb & Ht)|[Hall Hrest]].
      * left. exists (token :: before), t. split; [reflexivity|].
        split; [by constructor|exact Ht].
      * right. split; [by constructor|exact Hrest].
Qed.

Lemma collect_tokens_until_stop sentence before token after tokens :
  Forall (never_stops sentence) before ->
  contains (text token) sentence = true ->
  any_isalnum (sub_first (text token) sentence) = false ->
  collect_tokens sentence (before ++ token :: after) tokens =
    (tokens ++ List.filter (accepted sentence) (before ++ [token]), after).
Proof.
  intros Hbefore Hin Hstop. revert tokens.
  induction Hbefore as [|r before Hr _ IH]; intros tokens.
  - cbn [app collect_tokens]. rewrite Hin, Hstop. cbn [negb].
    rewrite filter_accepted_cons, Hin. simpl.
    destruct (any_isalnum (text token)); [reflexivity|by rewrite app_nil_r].
  - cbn [app collect_tokens]. rewrite filter_accepted_cons.
    destruct (contains (text r) sentence) eqn:Hc; cbn [negb andb]; [|apply IH].
    rewrite (Hr Hc). cbn [negb]. rewrite IH.
    destruct (any_isalnum (text r)); [by rewrite <- app_assoc|reflexivity].
Qed.

(** A share fixes what the loop returns. *)
Lemma collect_tokens_of_share sentence chunk rest tokens :
  share_of sentence chunk rest ->
  collect_tokens sentence (chunk ++ rest) tokens =
    (tokens ++ List.filter (accepted sentence) chunk, rest).
Proof.
  intros [(before & token & -> & Hb & Hin & Hstop)|[Hall ->]].
  - rewrite <- app_assoc. cbn [app].
    by apply collect_tokens_until_stop.
  - rewrite app_nil_r. by apply collect_tokens_reads_all.
Qed.

Lemma partitioned_exists sentences result :
  exists chunks leftover, partitioned sentences result chunks leftover.
Proof.
  revert result. induction sentences as [|sentence rest IH]; intros result.
  - exists [], result. reflexivity.
  - destruct (collect_tokens_share sentence result []) as (chunk & Hres & Hshare).
    destruct (IH (collect_tokens sentence result []).2) as (chunks & leftover & Hp).
    exists (chunk :: chunks), leftover. simpl. eauto.
Qed.

Lemma groups_of_partitioned sentences result chunks leftover :
  partitioned sentences result chunks leftover ->
  result = concat chunks ++ leftover /\
  length chunks = length sentences /\
  groups sentences result =
    zip_with (fun sentence chunk =>
                List.filter (accepted sentence) chunk ++ [terminal])
             sentences chunks.
Proof.
  revert result chunks.
  induction sentences as [|sentence rest IH]; intros result [|chunk chunks] Hpart;
    simpl in Hpart; try contradiction.
  - subst result. repeat split.
  - destruct Hpart as (result' & -> & Hshare & Hp).
    destruct (IH _ _ Hp) as (Hres & Hlen & Hg).
    split; [simpl; by rewrite <- app_assoc, <- Hres|].
    split; [simpl; by rewrite Hlen|].
    cbn [groups]. rewrite (collect_tokens_of_share _ _ _ [] Hshare).
    simpl. by rewrite Hg.
Qed.

(** Taking out of a share a record whose text does not occur in the
    sentence leaves a share. *)
Lemma share_of_erase sentence before token after rest :
  contains (text token) sentence = false ->
  share_of sentence (before ++ token :: after) rest ->
  share_of sentence (before ++ after) rest.
Proof.
  intros Hin [(b & t & Heq & Hb & Ht & Hstop)|[Hall Hrest]].
  - left. destruct (decide (after = [])) as [->|Hne].
    + apply app_inj_tail in Heq as [_ ->]. congruence.
    + destruct (exists_last Hne) as (after' & last & ->).
      change (token :: after' ++ [last]) with ((token :: after') ++ [last]) in Heq.
      rewrite app_assoc in Heq. apply app_inj_tail in Heq as [<- ->].
      exists (before ++ after'), t. split; [by rewrite app_assoc|].
      split; [|by split].
      apply Forall_app in Hb as [Hb1 Hb2]. apply Forall_cons in Hb2 as [_ Hb2].
      apply Forall_app. by split.
  - right. split; [|exact Hrest].
    apply Forall_app in Hall as [H1 H2]. apply Forall_cons in H2 as [_ H2].
    apply Forall_app. by split.
Qed.

Lemma filter_accepted_erase sentence before token after :
  contains (text token) sentence = false ->
  List.filter (accepted sentence) (before ++ after) =
  List.filter (accepted sentence) (before ++ token :: after).
Proof.
  intros Hin. rewrite !List.filter_app, filter_accepted_cons, Hin. reflexivity.
Qed.

Lemma partitioned_all_nil sentences chunks leftover :
  partitioned sentences [] chunks leftover -> Forall (fun chunk => chunk = []) chunks.
Proof.
  revert chunks.
  induction sentences as [|sentence rest IH]; intros [|chunk chunks] Hpart;
    simpl in Hpart; try contradiction; [constructor|].
  destruct Hpart as (result' & Hres & _ & Hp). symmetry in Hres.
  apply app_eq_nil in Hres as [-> ->]. constructor; [reflexivity|by apply IH].
Qed.

Lemma partitioned_erase sentences result chunks leftover k sentence before token after :
  partitioned sentences result chunks leftover ->
  sentences !! k = Some sentence ->
  chunks !! k = Some (before ++ token :: after) ->
  contains (text token) sentence = false ->
  partitioned sentences (concat (<[k := before ++ after]> chunks) ++ leftover)
              (<[k := before ++ after]> chunks) leftover.
Proof.
  revert result chunks k.
  induction sentences as [|s rest IH]; intros result [|chunk chunks] k Hpart;
    simpl in Hpart; try contradiction; [intros Hk; destruct k; discriminate|].
  destruct Hpart as (result' & -> & Hshare & Hp). intros Hs Hc Hin.
  destruct (groups_of_partitioned _ _ _ _ Hp) as (Hres' & _ & _).
  destruct k as [|k]; simpl in Hs, Hc.
  - injection Hs as ->. injection Hc as ->. simpl.
    exists result'. split; [by rewrite <- app_assoc, <- Hres'|].
    split; [by apply (share_of_erase _ _ token)|exact Hp].
  - simpl.
    exists (concat (<[k := before ++ after]> chunks) ++ leftover).
    split; [by rewrite <- app_assoc|]. split; [|by apply (IH result')].
    destruct Hshare as [Hstop|[Hall ->]]; [by left|].
    apply partitioned_all_nil in Hp. rewrite Forall_forall in Hp.
    assert (Hnil : before ++ token :: after = []).
    { apply Hp. by apply list_elem_of_lookup_2 in Hc. }
    by destruct before.
Qed.

(** A record read for a sentence in which its text does not occur counts
    for no sentence: without it in the stream, every group is the same. *)
Lemma groups_erase sentences result chunks leftover k sentence before token after :
  partitioned sentences result chunks leftover ->
  sentences !! k = Some sentence ->
  chunks !! k = Some (before ++ token :: after) ->
  contains (text token) sentence = false ->
  groups sentences (concat (<[k := before ++ after]> chunks) ++ leftover) =
  groups sentences result.
Proof.
  intros Hp Hs Hc Hin.
  destruct (groups_of_partitioned _ _ _ _ Hp) as (_ & Hlen & ->).
  destruct (groups_of_partitioned _ _ _ _
              (partitioned_erase _ _ _ _ _ _ _ _ _ Hp Hs Hc Hin)) as (_ & _ & ->).
  clear Hp Hlen. revert chunks k Hs Hc.
  induction sentences as [|s rest IH]; intros [|chunk chunks] k Hs Hc;
    try reflexivity.
  destruct k as [|k]; simpl in Hs, Hc.
  - injection Hs as ->. injection Hc as ->.
    pose proof (filter_accepted_erase sentence before token after Hin) as Hf.
    simpl. by rewrite Hf.
  - simpl. f_equal. by apply IH.
Qed.
End Shares.

(** C1, as the code has it. The stream is read once, left to right, by one
    cursor shared by the sentences: it is cut into one share per sentence,
    in order, followed by what no sentence read; the share of a sentence
    ends at the first record that passes its stop test, or is all that was
    left.  The tokens of a sentence are the records of its own share whose
    text occurs in the sentence and has an alphanumeric character, then
    the terminal record.  A record read for a sentence in which its text
    does not occur is dropped and reaches no later sentence: the sentence
    goes on as if the record had not been in the stream, and without the
    record the groups of all sentences are the same. *)
Theorem stream_consumed_once `{UnicodeData} tc sentences records sents :
  _process tc sentences records = Ok sents ->
  (exists chunks leftover,
     partitioned sentences records chunks leftover /\
     records = concat chunks ++ leftover /\
     length chunks = length sentences /\
     groups sentences records =
       zip_with (fun sentence chunk =>
                   List.filter (accepted sentence) chunk ++ [terminal])
                sentences chunks /\
     Forall2 (fun tokens s => List.map tok_text (sent_tokens s) = List.map text tokens)
             (groups sentences records) sents /\
     (forall k sentence before token after,
        sentences !! k = Some sentence ->
        chunks !! k = Some (before ++ token :: after) ->
        contains (text token) sentence = false ->
        groups sentences (concat (<[k := before ++ after]> chunks) ++ leftover) =
        groups sentences records)) /\
  (forall sentence token result tokens,
     contains (text token) sentence = false ->
     collect_tokens sentence (token :: result) tokens =
     collect_tokens sentence result tokens).
Proof.
  intros Hp. apply process_sentences_Ok in Hp as (_ & Hg & _).
  split; [|intros sentence token result tokens; apply collect_tokens_skip].
  destruct (partitioned_exists sentences records) as (chunks & leftover & Hpart).
  destruct (groups_of_partitioned _ _ _ _ Hpart) as (Hr & Hlen & Hgr).
  exists chunks, leftover. repeat split; try assumption.
  - eapply Forall2_impl; [exact Hg|]. simpl. intros tokens s Hb.
    exact (build_tokens_texts _ _ _ _ Hb).
  - intros k sentence before token after. by apply groups_erase.
Qed.

Lemma stream_consumed_once_witness :
  _process sample_converter demo_sentences demo_records = Ok demo_output /\
  collect_tokens (lit "Кот спит.")
    [ plain ". "; analysed "Кот" "кот" "S,муж,од=им,ед"; plain " ";
      analysed "спит" "спать" "V,несов,нп=непрош,ед,изъяв,3-л"; plain "." ] [] =
  collect_tokens (lit "Кот спит.")
    [ analysed "Кот" "кот" "S,муж,од=им,ед"; plain " ";
      analysed "спит" "спать" "V,несов,нп=непрош,ед,изъяв,3-л"; plain "." ] [].
Proof.
  split; [vm_compute; reflexivity|].
  destruct (stream_consumed_once sample_converter demo_sentences demo_records
              demo_output) as [_ Hskip]; [vm_compute; reflexivity|].
  apply Hskip. vm_compute. reflexivity.
Defined.

(** C1, as the claim has it, fails: with the sentences [a] and [b] and the
    stream [b, a], the record [b] does not occur in the first sentence and
    is skipped there; the first sentence leaves nothing in the stream, and
    the second sentence, in which [b] occurs, gets the terminal record
    only. *)
Lemma skipped_record_is_lost :
  contains (text (word "b")) (lit "a") = false /\
  (collect_tokens (lit "a") [word "b"; word "a"] []).2 = [] /\
  contains (text (word "b")) (lit "b") = true /\
  groups [lit "a"; lit "b"] [word "b"; word "a"] =
    [[word "a"; terminal]; [terminal]] /\
  ~ (forall sentence token result,
       contains (text token) sentence = false ->
       token ∈ (collect_tokens sentence (token :: result) []).2).
Proof.
  repeat split; try (vm_compute; reflexivity).
  intros Hclaim.
  specialize (Hclaim (lit "a") (word "b") [word "a"] eq_refl).
  vm_compute in Hclaim. inversion Hclaim.
Qed.

(** C2. The document [Кот спит. Пёс ест.]: two sentences, and the stream
    [Кот], [ ], [спит], [. ], [Пёс], [ ], [ест], [.], newline.  The code
    removes the text of the current record from the sentence text itself,
    never from a running copy: at [спит] the text tested is [Кот .], which
    still has letters, so the loop of the first sentence does not stop; it
    reads the stream to its end, dropping [Пёс] and [ест], and the second
    sentence is left with the terminal record alone.  With the running
    remainder of the specification the loop stops at [спит], and the
    second sentence gets [Пёс] and [ест]. *)
Theorem remainder_not_carried_over :
  collect_tokens (lit "Кот спит.") doc2_records [] =
    ([word "Кот"; word "спит"], []) /\
  groups doc2_sentences doc2_records =
    [[word "Кот"; word "спит"; terminal]; [terminal]] /\
  _process sample_converter doc2_sentences doc2_records =
    Ok [ mkSentence 0 (lit "Кот спит.")
           [ mkToken (lit "Кот") (mkDTO (lit "Кот") (lit "X") []) 1;
             mkToken (lit "спит") (mkDTO (lit "спит") (lit "X") []) 2;
             mkToken (lit ".") (mkDTO (lit ".") (lit "PUNCT") []) 3 ];
         mkSentence 1 (lit "Пёс ест.")
           [ mkToken (lit ".") (mkDTO (lit ".") (lit "PUNCT") []) 1 ] ] /\
  sub_first (lit "спит") (lit "Кот спит.") = lit "Кот ." /\
  sub_first (lit "спит") (sub_first (lit " ") (sub_first (lit "Кот") (lit "Кот спит."))) =
    lit "." /\
  spec_collect_tokens (lit "Кот спит.") doc2_records [] =
    ([word "Кот"; word "спит"],
     [plain ". "; word "Пёс"; plain " "; word "ест"; plain "."; mkRecord NL None]) /\
  spec_collect_tokens (lit "Пёс ест.")
    [plain ". "; word "Пёс"; plain " "; word "ест"; plain "."; mkRecord NL None] [] =
    ([word "Пёс"; word "ест"], [plain "."; mkRecord NL None]).
Proof. vm_compute. repeat split. Qed.

(** The stop test of the code looks at the sentence less the current record
    only. *)
Lemma collect_tokens_stop `{UnicodeData} sentence token result tokens :
  contains (text token) sentence = true ->
  collect_tokens sentence (token :: result) tokens =
    let tokens' := if any_isalnum (text token) then tokens ++ [token] else tokens in
    if any_isalnum (sub_first (text token) sentence)
    then collect_tokens sentence result tokens'
    else (tokens', result).
Proof.
  intros Hin. simpl. rewrite Hin. simpl.
  by destruct (any_isalnum (sub_first (text token) sentence)).
Qed.

(** ** Errors of the tag converter *)

Lemma getitem_Raise {V} (d : gmap str V) key e :
  getitem d key = Raise e -> e = KeyError key.
Proof. unfold getitem. destruct (d !! key); [discriminate|congruence]. Qed.

Lemma bind_Raise {A B} (r : outcome A) (k : A -> outcome B) e :
  bind r k = Raise e -> r = Raise e \/ exists a, r = Ok a /\ k a = Raise e.
Proof. destruct r; simpl; [eauto|]. intros [= ->]. by left. Qed.

Lemma assign_tag_builtin tc tag categories format_tags e :
  assign_tag tc tag categories format_tags = Raise e -> builtin_error e = true.
Proof.
  induction categories as [|category rest IH]; simpl; [discriminate|].
  intros Hr. apply bind_Raise in Hr as [Hr|(m & _ & Hr)].
  - apply getitem_Raise in Hr as ->. reflexivity.
  - destruct (m !! tag); [destruct (has_key category format_tags); simpl in Hr|];
      (discriminate || auto).
Qed.

Lemma assign_tags_builtin tc tag_list format_tags e :
  assign_tags tc tag_list format_tags = Raise e -> builtin_error e = true.
Proof.
  revert format_tags.
  induction tag_list as [|tag rest IH]; intros format_tags; cbn [assign_tags];
    [discriminate|].
  intros Hr. apply bind_Raise in Hr as [Hr|(m & _ & Hr)].
  - exact (assign_tag_builtin _ _ _ _ _ Hr).
  - exact (IH _ Hr).
Qed.

Lemma convert_morphological_tags_builtin tc tags e :
  convert_morphological_tags tc tags = Raise e -> builtin_error e = true.
Proof.
  unfold convert_morphological_tags. intros Hr.
  apply bind_Raise in Hr as [Hr|(m & _ & Hr)]; [|discriminate].
  exact (assign_tags_builtin _ _ _ _ Hr).
Qed.

Lemma convert_pos_builtin tc tags e :
  convert_pos tc tags = Raise e -> builtin_error e = true.
Proof.
  unfold convert_pos. destruct (search class_A_Z tags); [|by intros [= <-]].
  intros Hr. apply bind_Raise in Hr as [Hr|(m & _ & Hr)];
    apply getitem_Raise in Hr as ->; reflexivity.
Qed.

Section ProcessErrors.
Context `{UnicodeData}.
Variable tc : TagConverter.

Lemma build_token_builtin idx token e :
  build_token tc idx token = Raise e -> builtin_error e = true.
Proof.
  unfold build_token. intros Hr.
  apply bind_Raise in Hr as [Hr|(m & _ & Hr)]; [|discriminate].
  destruct (analysis token) as [[|first rest]|]; try discriminate.
  apply bind_Raise in Hr as [Hr|(p & _ & Hr)];
    [exact (convert_pos_builtin _ _ _ Hr)|].
  apply bind_Raise in Hr as [Hr|(t & _ & Hr)]; [|discriminate].
  exact (convert_morphological_tags_builtin _ _ _ Hr).
Qed.

Lemma build_tokens_builtin idx tokens e :
  build_tokens tc idx tokens = Raise e -> builtin_error e = true.
Proof.
  revert idx. induction tokens as [|token rest IH]; intros idx; simpl; [discriminate|].
  intros Hr. apply bind_Raise in Hr as [Hr|(ct & _ & Hr)];
    [exact (build_token_builtin _ _ _ Hr)|].
  apply bind_Raise in Hr as [Hr|(cts & _ & Hr)]; [|discriminate].
  exact (IH _ Hr).
Qed.

Lemma process_sentences_builtin idx sentences result e :
  process_sentences tc idx sentences result = Raise e -> builtin_error e = true.
Proof.
  revert idx result. induction sentences as [|sentence rest IH]; intros idx result; simpl;
    [discriminate|].
  destruct (collect_tokens sentence result []) as [tokens result'].
  intros Hr. apply bind_Raise in Hr as [Hr|(cts & _ & Hr)];
    [exact (build_tokens_builtin _ _ _ Hr)|].
  apply bind_Raise in Hr as [Hr|(ss & _ & Hr)]; [|discriminate].
  exact (IH _ _ Hr).
Qed.

(** A token whose POS conversion fails makes [build_token] fail with the
    same error, whatever its index. *)
Lemma build_token_pos_Raise idx token a rest e :
  analysis token = Some (a :: rest) ->
  convert_pos tc (gr a) = Raise e ->
  build_token tc idx token = Raise e.
Proof. intros Ha Hc. unfold build_token. rewrite Ha. simpl. by rewrite Hc. Qed.
End ProcessErrors.

(** C3, as the code has it. A native tag string whose upper-case POS code
    has no entry in the POS category makes [convert_pos] fail with the
    built-in KeyError for that code; where a token with such a tag string
    is among the tokens of a sentence, [_process] fails as well, with a
    built-in error, and returns no sentence. *)
Theorem unmapped_pos_raises_KeyError `{UnicodeData} tc tags code m :
  search class_A_Z tags = Some code ->
  _tag_mapping tc !! cat_pos tc = Some m ->
  m !! code = None ->
  convert_pos tc tags = Raise (KeyError code) /\
  forall sentences records tokens token lex rest,
    tokens ∈ groups sentences records ->
    token ∈ tokens ->
    analysis token = Some (mkAnalysis lex tags :: rest) ->
    exists e, _process tc sentences records = Raise e /\ builtin_error e = true.
Proof.
  intros Hs Hm Hc.
  assert (Hpos : convert_pos tc tags = Raise (KeyError code)).
  { unfold convert_pos, getitem. rewrite Hs, Hm. simpl. by rewrite Hc. }
  split; [exact Hpos|].
  intros sentences records tokens token lex0 rest Hg Ht Ha.
  destruct (build_tokens_Raise tc 1 tokens token (KeyError code) Ht) as [e1 He1].
  { intros i. eapply build_token_pos_Raise; [exact Ha|exact Hpos]. }
  destruct (process_sentences_Raise tc 0 sentences records tokens e1 Hg He1) as [e He].
  exists e. split; [exact He|]. exact (process_sentences_builtin _ _ _ _ _ He).
Qed.

Lemma unmapped_pos_raises_KeyError_witness :
  search class_A_Z (lit "Q,муж") = Some (lit "Q") /\
  convert_pos sample_converter (lit "Q,муж") = Raise (KeyError (lit "Q")) /\
  exists e, _process sample_converter [lit "Кот."] [analysed "Кот" "кот" "Q,муж"] = Raise e /\
            builtin_error e = true.
Proof.
  split; [vm_compute; reflexivity|].
  destruct (unmapped_pos_raises_KeyError sample_converter (lit "Q,муж") (lit "Q")
              (dict [("S", "NOUN"); ("V", "VERB"); ("A", "ADJ")]%string))
    as [Hpos Hproc]; try (vm_compute; reflexivity).
  split; [exact Hpos|].
  apply (Hproc [lit "Кот."] [analysed "Кот" "кот" "Q,муж"]
               [analysed "Кот" "кот" "Q,муж"; terminal]
               (analysed "Кот" "кот" "Q,муж") (lit "кот") []).
  - vm_compute. apply list_elem_of_here.
  - apply list_elem_of_here.
  - reflexivity.
Defined.

(** C3, as the claim has it, fails: for the tag string [Q,муж], whose code
    [Q] has no entry, the error is KeyError, not UnknownTagError. *)
Lemma unmapped_pos_not_UnknownTagError :
  search class_A_Z (lit "Q,муж") = Some (lit "Q") /\
  (_tag_mapping sample_converter !! cat_pos sample_converter) ≫= (fun m => m !! lit "Q") = None /\
  convert_pos sample_converter (lit "Q,муж") = Raise (KeyError (lit "Q")) /\
  convert_pos sample_converter (lit "Q,муж") <> Raise UnknownTagError.
Proof.
  repeat split; try (vm_compute; reflexivity).
  vm_compute. discriminate.
Qed.

(** ** Cleaned text *)

Section Cleaning.
Context `{UnicodeData}.

Lemma get_cleaned_rule t : get_cleaned t = clean_rule (tok_text t).
Proof.
  unfold get_cleaned, clean_rule, sub_class, re_not_word_space, re_word.
  apply List.filter_ext. intros c. by rewrite negb_involutive.
Qed.

Lemma filter_filter_weaker (P Q : char -> bool) (s : str) :
  (forall c, P c = true -> Q c = true) ->
  List.filter P (List.filter Q s) = List.filter P s.
Proof.
  intros HPQ. induction s as [|c s IH]; [reflexivity|]. simpl.
  destruct (Q c) eqn:HQ; simpl.
  - by rewrite IH.
  - destruct (P c) eqn:HP; [|exact IH].
    rewrite (HPQ _ HP) in HQ. discriminate.
Qed.

Lemma lower_at_fixed before c after :
  lower_stable -> Forall lower_fixed (lower_at before c after).
Proof.
  intros (Hfull & H962 & H963). unfold lower_at.
  destruct (c =? 931) eqn:Hc.
  - destruct (final_sigma before after); repeat constructor; (lia || assumption).
  - apply N.eqb_neq in Hc. apply Forall_forall. intros d Hd. exact (Hfull c d Hc Hd).
Qed.

Lemma lower_from_fixed before s :
  lower_stable -> Forall lower_fixed (lower_from before s).
Proof.
  intros Hst. revert before. induction s as [|c s IH]; intros before; simpl.
  - constructor.
  - apply Forall_app. split; [by apply lower_at_fixed|apply IH].
Qed.

(** Lowercasing a string of such characters changes nothing. *)
Lemma lower_from_id before s :
  Forall lower_fixed s -> lower_from before s = s.
Proof.
  intros Hs. revert before. induction Hs as [|d s [Hd1 Hd2] _ IH]; intros before; simpl.
  - reflexivity.
  - unfold lower_at. apply N.eqb_neq in Hd1. rewrite Hd1, Hd2. simpl. by rewrite IH.
Qed.

Lemma Forall_filter (P : char -> Prop) (f : char -> bool) (s : str) :
  Forall P s -> Forall P (List.filter f s).
Proof.
  induction 1 as [|c s Hc _ IH]; simpl; [constructor|].
  destruct (f c); [by constructor|exact IH].
Qed.

Lemma lower_get_cleaned t :
  lower_stable -> lower (get_cleaned t) = get_cleaned t.
Proof.
  intros Hst. apply lower_from_id. rewrite get_cleaned_rule.
  apply Forall_filter. by apply lower_from_fixed.
Qed.
End Cleaning.

(** C7, as the code has it. [get_cleaned] returns the surface text
    lowercased, with every character removed that is neither alphanumeric,
    nor the underscore, nor whitespace; the other characters stay, in
    their order.  The text of the specification's rule is obtained from it
    by removing the underscores as well. *)
Theorem get_cleaned_keeps_word_characters `{UnicodeData} (t : ConlluToken) :
  get_cleaned t =
    List.filter (fun c => isalnum c || (c =? 95) || isspace c) (lower (tok_text t)) /\
  spec_clean_rule (tok_text t) =
    List.filter (fun c => isalnum c || isspace c) (get_cleaned t).
Proof.
  split; [exact (get_cleaned_rule t)|].
  rewrite get_cleaned_rule. unfold clean_rule, spec_clean_rule.
  symmetry. apply filter_filter_weaker. intros c Hc.
  apply orb_true_iff in Hc as [->| ->]; [reflexivity|apply orb_true_r].
Qed.

(** C7, as the claim has it, fails: the underscore is neither alphanumeric
    nor whitespace, and [get_cleaned] keeps it. *)
Lemma get_cleaned_keeps_underscore :
  isalnum 95 = false /\ isspace 95 = false /\
  get_cleaned (new_ConlluToken (lit "A_b!")) = lit "a_b" /\
  spec_clean_rule (lit "A_b!") = lit "ab" /\
  get_cleaned (new_ConlluToken (lit "A_b!")) <> spec_clean_rule (lit "A_b!").
Proof.
  repeat split; try (vm_compute; reflexivity).
  vm_compute. discriminate.
Qed.

(** C9. Cleaned-text rendering is idempotent: for every token, cleaning
    the string [get_cleaned] returned (as the text of a token, or as a
    bare string by the same rule) gives that string again.  The
    hypothesis is a fact of the runtime's character database: its
    lowercase mapping only yields code points that it leaves unchanged. *)
Theorem get_cleaned_idempotent `{UnicodeData} (t : ConlluToken) :
  lower_stable ->
  get_cleaned (new_ConlluToken (get_cleaned t)) = get_cleaned t /\
  clean_rule (get_cleaned t) = get_cleaned t.
Proof.
  intros Hst.
  assert (Hrule : clean_rule (get_cleaned t) = get_cleaned t).
  { unfold clean_rule at 1. rewrite (lower_get_cleaned t Hst).
    rewrite get_cleaned_rule. unfold clean_rule.
    apply filter_filter_weaker. auto. }
  split; [rewrite get_cleaned_rule; exact Hrule|exact Hrule].
Qed.

Lemma basic_table_lower_stable : lower_stable.
Proof.
  unfold lower_stable. simpl. split; [|split; reflexivity].
  intros c d Hc Hd. unfold in_range in *.
  repeat match type of Hd with
         | context [if ?b then _ else _] => destruct b eqn:?
         end;
    apply list_elem_of_singleton in Hd; subst d;
    repeat match goal with
           | Hb : (_ && _) = true |- _ => apply andb_true_iff in Hb as [? ?]
           | Hb : (_ && _) = false |- _ => apply andb_false_iff in Hb
           | Hb : (_ <=? _) = true |- _ => apply N.leb_le in Hb
           end;
    (split; [lia|]);
    repeat match goal with
           | |- context [?a <=? ?b] =>
               let Hx := fresh in destruct (N.leb_spec a b) as [Hx|Hx]; simpl
           end;
    try reflexivity;
    repeat match goal with
           | Hb : _ \/ _ |- _ => destruct Hb
           | Hb : (_ <=? _) = false |- _ => apply N.leb_gt in Hb
           end; lia.
Defined.

Lemma get_cleaned_idempotent_witness :
  lower_stable /\
  get_cleaned (new_ConlluToken (get_cleaned (new_ConlluToken (lit "A_b, Кот!")))) =
  get_cleaned (new_ConlluToken (lit "A_b, Кот!")).
Proof.
  split; [exact basic_table_lower_stable|].
  apply (get_cleaned_idempotent (new_ConlluToken (lit "A_b, Кот!"))
           basic_table_lower_stable).
Defined.

(** ** The order of strings and [sorted] *)

Lemma str_compare_eq a b : str_compare a b = Eq <-> a = b.
Proof.
  revert b. induction a as [|x a IH]; intros [|y b]; simpl; try (split; congruence).
  destruct (N.compare_spec x y) as [->|Hlt|Hgt].
  - rewrite IH. split; congruence.
  - split; [discriminate|]. intros [= -> _]. lia.
  - split; [discriminate|]. intros [= -> _]. lia.
Qed.

Lemma str_compare_antisym a b : str_compare b a = CompOpp (str_compare a b).
Proof.
  revert b. induction a as [|x a IH]; intros [|y b]; simpl; try reflexivity.
  rewrite (N.compare_antisym x y).
  destruct (x ?= y); simpl; [apply IH|reflexivity|reflexivity].
Qed.

Lemma str_lt_trans a b c : str_lt a b -> str_lt b c -> str_lt a c.
Proof.
  unfold str_lt. revert b c.
  induction a as [|x a IH]; intros [|y b] [|z c]; simpl; try congruence.
  destruct (N.compare_spec x y) as [->|Hxy|Hxy]; try discriminate.
  - destruct (N.compare_spec y z) as [->|Hyz|Hyz]; try discriminate; [apply IH|reflexivity].
  - intros _. destruct (N.compare_spec y z) as [->|Hyz|Hyz]; try discriminate; intros _.
    + apply N.compare_lt_iff in Hxy. by rewrite Hxy.
    + assert (Hxz : x < z) by lia. apply N.compare_lt_iff in Hxz. by rewrite Hxz.
Qed.

Lemma item_ltb_true x y : item_ltb y x = true -> y.1 <> x.1 -> str_lt y.1 x.1.
Proof.
  unfold item_ltb, str_lt. destruct (str_compare y.1 x.1) eqn:Hc; try congruence.
  apply str_compare_eq in Hc. congruence.
Qed.

Lemma item_ltb_false x y : item_ltb y x = false -> y.1 <> x.1 -> str_lt x.1 y.1.
Proof.
  unfold item_ltb, str_lt. rewrite (str_compare_antisym y.1 x.1).
  destruct (str_compare y.1 x.1) eqn:Hc; try (simpl; congruence).
  apply str_compare_eq in Hc. congruence.
Qed.

Lemma insert_item_Permutation x l : insert_item x l ≡ₚ x :: l.
Proof.
  induction l as [|y l IH]; simpl; [reflexivity|].
  destruct (item_ltb y x); [|reflexivity].
  rewrite IH. apply Permutation_swap.
Qed.

Lemma sorted_Permutation l : sorted l ≡ₚ l.
Proof.
  induction l as [|x l IH]; simpl; [reflexivity|].
  by rewrite insert_item_Permutation, IH.
Qed.

(** Inserting an item with a fresh key keeps the keys strictly increasing. *)
Lemma insert_item_keys_sorted x l :
  x.1 ∉ l.*1 ->
  StronglySorted str_lt l.*1 ->
  StronglySorted str_lt (insert_item x l).*1.
Proof.
  induction l as [|y l IH]; simpl; intros Hx Hs.
  - repeat constructor.
  - apply not_elem_of_cons in Hx as [Hxy Hx].
    apply StronglySorted_inv in Hs as [Hs Hy].
    destruct (item_ltb y x) eqn:Hlt; simpl.
    + constructor; [by apply IH|].
      apply Forall_forall. intros k Hk.
      assert (Hk' : k ∈ (x :: l).*1).
      { rewrite <- (insert_item_Permutation x l). exact Hk. }
      simpl in Hk'. apply elem_of_cons in Hk' as [->|Hk'].
      * apply item_ltb_true; [exact Hlt|congruence].
      * rewrite Forall_forall in Hy. by apply Hy.
    + assert (Hxlt : str_lt x.1 y.1) by (apply item_ltb_false; [exact Hlt|congruence]).
      constructor; [constructor; assumption|].
      constructor; [exact Hxlt|].
      eapply Forall_impl; [exact Hy|]. simpl. intros k Hk.
      exact (str_lt_trans _ _ _ Hxlt Hk).
Qed.

Lemma sorted_keys_sorted l :
  NoDup l.*1 -> StronglySorted str_lt (sorted l).*1.
Proof.
  induction l as [|x l IH]; simpl; intros Hnd; [constructor|].
  apply NoDup_cons in Hnd as [Hx Hnd].
  apply insert_item_keys_sorted; [|by apply IH].
  by rewrite (sorted_Permutation l).
Qed.

(** ** The assignment of feature categories *)

Lemma has_key_false category format_tags :
  has_key category format_tags = false <-> category ∉ format_tags.*1.
Proof.
  unfold has_key. induction format_tags as [|[k v] l IH]; simpl.
  - split; [intros _; apply not_elem_of_nil|reflexivity].
  - rewrite not_elem_of_cons, orb_false_iff, IH, bool_decide_eq_false. simpl.
    split; intros [Hne Hl]; (split; [intros Heq; by apply Hne|exact Hl]).
Qed.

Section Assignment.
Variable tc : TagConverter.

Lemma assign_tag_cases tag categories format_tags :
  (forall category, category ∈ categories -> is_Some (_tag_mapping tc !! category)) ->
  (exists i category value,
      categories !! i = Some category /\
      mapped tc category tag = Some value /\
      has_key category format_tags = false /\
      (forall j category', (j < i)%nat -> categories !! j = Some category' ->
         mapped tc category' tag = None \/ has_key category' format_tags = true) /\
      assign_tag tc tag categories format_tags =
        Ok (format_tags ++ [(category, value)]))
  \/
  ((forall category, category ∈ categories ->
      mapped tc category tag = None \/ has_key category format_tags = true) /\
   assign_tag tc tag categories format_tags = Ok format_tags).
Proof.
  induction categories as [|category rest IH]; intros Hcomplete.
  - right. split; [intros c Hc; inversion Hc|reflexivity].
  - destruct (Hcomplete category) as [m Hm]; [apply list_elem_of_here|].
    assert (Hmapped : mapped tc category tag = m !! tag).
    { unfold mapped. by rewrite Hm. }
    assert (Hstep :
      (exists value, m !! tag = Some value /\ has_key category format_tags = false /\
         assign_tag tc tag (category :: rest) format_tags =
           Ok (format_tags ++ [(category, value)])) \/
      ((mapped tc category tag = None \/ has_key category format_tags = true) /\
       assign_tag tc tag (category :: rest) format_tags =
         assign_tag tc tag rest format_tags)).
    { cbn [assign_tag]. unfold getitem. rewrite Hm. cbn [bind]. rewrite Hmapped.
      destruct (m !! tag) as [value|]; [|right; split; [by left|reflexivity]].
      destruct (has_key category format_tags); cbn [negb].
      - right. split; [by right|reflexivity].
      - left. exists value. repeat split. }
    destruct Hstep as [(value & Hv & Hk & Ha)|[Hskip Ha]].
    + left. exists 0%nat, category, value. repeat split; try assumption.
      * congruence.
      * intros j c' Hj. lia.
    + rewrite Ha.
      destruct IH as [(i & c & v & Hi & Hmv & Hk & Hearlier & Hres)|[Hnone Hres]].
      { intros c Hc. apply Hcomplete. by apply list_elem_of_further. }
      * left. exists (S i), c, v. repeat split; try assumption.
        intros [|j] c' Hj Hc'; simpl in Hc'.
        -- injection Hc' as <-. exact Hskip.
        -- apply (Hearlier j); [lia|exact Hc'].
      * right. split; [|exact Hres].
        intros c Hc. apply elem_of_cons in Hc as [->|Hc]; [exact Hskip|by apply Hnone].
Qed.

Lemma assign_tags_spec tag_list format_tags :
  table_complete tc ->
  NoDup format_tags.*1 ->
  exists format_tags',
    assign_tags tc tag_list format_tags = Ok format_tags' /\
    spec_assignment tc tag_list format_tags format_tags' /\
    NoDup format_tags'.*1 /\
    (forall category, category ∈ format_tags'.*1 ->
       category ∈ format_tags.*1 \/ category ∈ feature_categories tc).
Proof.
  intros Hcomplete. revert format_tags.
  induction tag_list as [|tag rest IH]; intros format_tags Hnd.
  - exists format_tags. repeat split; [constructor|exact Hnd|by left].
  - cbn [assign_tags].
    destruct (assign_tag_cases tag (feature_categories tc) format_tags Hcomplete)
      as [(i & c & v & Hi & Hmv & Hk & Hearlier & ->)|[Hnone ->]]; cbn [bind].
    + destruct (IH (format_tags ++ [(c, v)])) as (fmt' & Hres & Hspec & Hnd' & Hkeys).
      { rewrite fmap_app. apply NoDup_app. split; [exact Hnd|]. split.
        - intros k Hk1 Hk2. apply list_elem_of_singleton in Hk2. subst k.
          apply has_key_false in Hk. contradiction.
        - apply NoDup_singleton. }
      exists fmt'. repeat split; try assumption.
      * eapply spec_assign_take; [|exact Hspec]. exists i. repeat split; assumption.
      * intros k Hk'. destruct (Hkeys k Hk') as [Hin|Hin]; [|by right].
        rewrite fmap_app in Hin. apply elem_of_app in Hin as [Hin|Hin]; [by left|].
        apply list_elem_of_singleton in Hin. subst k. right.
        by apply list_elem_of_lookup_2 in Hi.
    + destruct (IH format_tags Hnd) as (fmt' & Hres & Hspec & Hnd' & Hkeys).
      exists fmt'. repeat split; try assumption.
      by apply spec_assign_drop.
Qed.
End Assignment.

(** C6. With a table that has the five feature categories, for every native
    tag string: the codes are assigned as the specification says (a code
    goes to the earliest category of the order case, number, gender,
    animacy, tense in which it is mapped and which is still unassigned; a
    code without such a category is dropped, with no error); no category
    gets two values; the result is the assigned pairs, sorted by category
    name, rendered [category=value] and joined by [|]; it is empty when
    nothing was assigned. *)
Theorem tags_assigned_by_precedence (tc : TagConverter) (tags : str) :
  table_complete tc ->
  exists format_tags,
    assign_tags tc (findall class_a_ya tags) [] = Ok format_tags /\
    spec_assignment tc (findall class_a_ya tags) [] format_tags /\
    NoDup format_tags.*1 /\
    Forall (fun category => category ∈ feature_categories tc) format_tags.*1 /\
    sorted format_tags ≡ₚ format_tags /\
    StronglySorted str_lt (sorted format_tags).*1 /\
    convert_morphological_tags tc tags =
      Ok (join (lit "|") (List.map render_item (sorted format_tags))) /\
    join (lit "|") (List.map render_item (sorted [])) = [].
Proof.
  intros Hcomplete.
  destruct (assign_tags_spec tc (findall class_a_ya tags) [] Hcomplete)
    as (fmt & Hres & Hspec & Hnd & Hkeys); [constructor|].
  exists fmt. repeat split; try assumption.
  - apply Forall_forall. intros k Hk.
    destruct (Hkeys k Hk) as [Hin|Hin]; [inversion Hin|exact Hin].
  - apply sorted_Permutation.
  - by apply sorted_keys_sorted.
  - unfold convert_morphological_tags. rewrite Hres. reflexivity.
Qed.

Lemma sample_converter_complete : table_complete sample_converter.
Proof.
  intros category Hc. simpl in Hc.
  repeat (apply elem_of_cons in Hc as [->|Hc]; [vm_compute; eauto|]).
  inversion Hc.
Defined.

Lemma tags_assigned_by_precedence_witness :
  table_complete sample_converter /\
  convert_morphological_tags sample_converter (lit "S,жен,им,жен,ед,ед,зват") =
    Ok (lit "Case=Acc|Gender=Fem|Number=Sing") /\
  exists format_tags,
    assign_tags sample_converter (findall class_a_ya (lit "S,жен")) [] = Ok format_tags /\
    spec_assignment sample_converter (findall class_a_ya (lit "S,жен")) [] format_tags /\
    NoDup format_tags.*1 /\
    Forall (fun category => category ∈ feature_categories sample_converter) format_tags.*1 /\
    sorted format_tags ≡ₚ format_tags /\
    StronglySorted str_lt (sorted format_tags).*1 /\
    convert_morphological_tags sample_converter (lit "S,жен") =
      Ok (join (lit "|") (List.map render_item (sorted format_tags))) /\
    join (lit "|") (List.map render_item (sorted [])) = [].
Proof.
  split; [exact sample_converter_complete|].
  split; [vm_compute; reflexivity|].
  apply (tags_assigned_by_precedence sample_converter (lit "S,жен")).
  exact sample_converter_complete.
Defined.

(** A code mapped under both Case and Gender goes to Case; once Case has a
    value, the same code goes to Gender. *)
Example ambiguous_code_goes_to_case :
  mapped sample_converter (lit "Case") (lit "жен") = Some (lit "Acc") /\
  mapped sample_converter (lit "Gender") (lit "жен") = Some (lit "Fem") /\
  convert_morphological_tags sample_converter (lit "жен") = Ok (lit "Case=Acc") /\
  convert_morphological_tags sample_converter (lit "им,жен") =
    Ok (lit "Case=Nom|Gender=Fem").
Proof. vm_compute. repeat split. Qed.

(** * Further properties of the module *)

(** ** [_process]: the sentences it returns *)

Section ProcessShape.
Context `{UnicodeData}.
Variable tc : TagConverter.

(** Every returned sentence is built from records accepted for its own
    text, followed by the terminal record. *)
Lemma process_sentences_accepted idx sentences result sents :
  process_sentences tc idx sentences result = Ok sents ->
  Forall (fun s => exists matched,
            Forall (fun r => accepted (sent_text s) r = true) matched /\
            build_tokens tc 1 (matched ++ [terminal]) = Ok (sent_tokens s)) sents.
Proof.
  revert idx result sents.
  induction sentences as [|sentence rest IH]; intros idx result sents Hp; simpl in Hp.
  - injection Hp as <-. constructor.
  - destruct (collect_tokens_prefix sentence result []) as (consumed & _ & Htok).
    destruct (collect_tokens sentence result []) as [tokens result']. simpl in Htok.
    apply bind_Ok in Hp as (cts & Hcts & Hp).
    apply bind_Ok in Hp as (sents' & Hsents & Hp). injection Hp as <-.
    constructor; [|exact (IH _ _ _ Hsents)].
    exists tokens. split; [|exact Hcts]. simpl. subst tokens.
    apply Forall_forall. intros r Hr.
    apply list_elem_of_In, List.filter_In in Hr as [_ Hr]. exact Hr.
Qed.

Lemma build_token_unanalysed idx token t :
  unanalysed token ->
  build_token tc idx token = Ok t ->
  lemma (morphological_parameters t) = text token /\
  tags (morphological_parameters t) = [] /\
  pos (morphological_parameters t) =
    (if bool_decide (strip (text token) = lit ".") then lit "PUNCT"
     else if str_isdigit (text token) then lit "NUM" else lit "X").
Proof.
  unfold build_token. intros [Ha|Ha]; rewrite Ha; simpl; intros [= <-]; repeat split.
Qed.

Lemma build_tokens_unanalysed idx tokens :
  Forall unanalysed tokens ->
  exists cts,
    build_tokens tc idx tokens = Ok cts /\
    Forall (fun t =>
              lemma (morphological_parameters t) = tok_text t /\
              tags (morphological_parameters t) = [] /\
              pos (morphological_parameters t) ∈ fallback_labels) cts.
Proof.
  intros Hall. revert idx.
  induction Hall as [|token rest Htok _ IH]; intros idx.
  - exists []. split; [reflexivity|constructor].
  - cbn [build_tokens].
    destruct (build_token_no_analysis tc idx token Htok) as [p Hp].
    destruct (build_token_unanalysed idx token _ Htok Hp) as (_ & _ & Hpos).
    rewrite Hp. cbn [bind].
    destruct (IH (idx + 1)%Z) as (cts & -> & Hcts). cbn [bind].
    eexists. split; [reflexivity|]. constructor; [|exact Hcts].
    simpl in *. repeat split. rewrite Hpos. unfold fallback_labels.
    destruct (bool_decide (strip (text token) = lit "."));
      [|destruct (str_isdigit (text token))]; set_solver.
Qed.
End ProcessShape.

Lemma process_sentences_positions `{UnicodeData} tc idx sentences result sents :
  process_sentences tc idx sentences result = Ok sents ->
  List.map sent_text sents = sentences /\
  List.map sent_position sents =
    List.map (fun i => (idx + Z.of_nat i)%Z) (seq 0 (length sentences)).
Proof.
  revert idx result sents.
  induction sentences as [|sentence rest IH]; intros idx result sents Hp; simpl in Hp.
  - injection Hp as <-. split; reflexivity.
  - destruct (collect_tokens sentence result []) as [tokens result'].
    apply bind_Ok in Hp as (cts & Hcts & Hp).
    apply bind_Ok in Hp as (sents' & Hsents & Hp). injection Hp as <-.
    destruct (IH _ _ _ Hsents) as [IH1 IH2]. simpl. split.
    + by rewrite IH1.
    + rewrite Z.add_0_r. f_equal. rewrite IH2, <- seq_shift, List.map_map.
      apply List.map_ext. intros i. lia.
Qed.

(** X1. [_process] returns one sentence per sentence of the input, in the
    input's order: the i-th sentence carries the i-th text unchanged and
    the index i, counted from 0. *)
Theorem sentences_in_document_order `{UnicodeData} tc sentences records sents :
  _process tc sentences records = Ok sents ->
  length sents = length sentences /\
  List.map sent_text sents = sentences /\
  List.map sent_position sents = List.map Z.of_nat (seq 0 (length sentences)).
Proof.
  intros Hp. destruct (process_sentences_positions _ _ _ _ _ Hp) as [Ht Hpos].
  split; [|split; [exact Ht|exact Hpos]].
  by rewrite <- Ht, length_map.
Qed.

Lemma sentences_in_document_order_witness :
  _process sample_converter demo_sentences demo_records = Ok demo_output /\
  length demo_output = length demo_sentences /\
  List.map sent_text demo_output = demo_sentences /\
  List.map sent_position demo_output = [0%Z; 1%Z].
Proof.
  split; [vm_compute; reflexivity|].
  apply (sentences_in_document_order sample_converter demo_sentences demo_records).
  vm_compute. reflexivity.
Defined.

(** X2. Apart from the last one, every token of a returned sentence has a
    surface text that occurs in the text of its sentence and has an
    alphanumeric character: separators and punctuation of the stream never
    become tokens. *)
Theorem tokens_occur_in_their_sentence `{UnicodeData} tc sentences records sents :
  _process tc sentences records = Ok sents ->
  Forall (fun s => exists front last,
            sent_tokens s = front ++ [last] /\
            Forall (fun t => contains (tok_text t) (sent_text s) = true /\
                             any_isalnum (tok_text t) = true) front) sents.
Proof.
  intros Hp. apply process_sentences_accepted in Hp.
  eapply Forall_impl; [exact Hp|]. simpl. intros s (matched & Hacc & Hb).
  apply build_tokens_Ok in Hb as [Hf _].
  apply Forall2_app_inv_l in Hf as (front & tl & Hfront & Hlast & Hs).
  apply Forall2_cons_inv_l in Hlast as (last & tl' & _ & Hnil & ->).
  apply Forall2_nil_inv_l in Hnil as ->.
  exists front, last. split; [exact Hs|].
  clear Hs. induction Hfront as [|r t matched' front' Hrt _ IH]; [constructor|].
  apply Forall_cons in Hacc as [Hr Hacc]. constructor; [|exact (IH Hacc)].
  apply build_token_Ok in Hrt as [_ ->].
  unfold accepted in Hr. by apply andb_true_iff in Hr.
Qed.

Lemma tokens_occur_in_their_sentence_witness :
  _process sample_converter demo_sentences demo_records = Ok demo_output /\
  Forall (fun s => exists front last,
            sent_tokens s = front ++ [last] /\
            Forall (fun t => contains (tok_text t) (sent_text s) = true /\
                             any_isalnum (tok_text t) = true) front) demo_output.
Proof.
  split; [vm_compute; reflexivity|].
  apply (tokens_occur_in_their_sentence sample_converter demo_sentences demo_records).
  vm_compute. reflexivity.
Defined.

(** X3. Where the full stop is not a whitespace character of the runtime,
    the last token of every returned sentence has the POS label PUNCT. *)
Theorem last_token_is_punct `{UnicodeData} tc sentences records sents :
  isspace 46 = false ->
  _process tc sentences records = Ok sents ->
  Forall (fun s => exists t, last (sent_tokens s) = Some t /\
                             pos (morphological_parameters t) = lit "PUNCT") sents.
Proof.
  intros Hdot Hp. apply process_sentences_accepted in Hp.
  eapply Forall_impl; [exact Hp|]. simpl. intros s (matched & _ & Hb).
  apply build_tokens_app_Ok in Hb as (front & t & -> & _ & Ht).
  exists t. split; [apply last_snoc|].
  destruct (build_token_unanalysed tc _ terminal t (or_introl eq_refl) Ht) as (_ & _ & ->).
  assert (Hstrip : strip (text terminal) = lit ".").
  { unfold strip. change (text terminal) with [46]. change (lit ".") with [46].
    cbn [dropwhile]. rewrite Hdot. cbn. rewrite Hdot. reflexivity. }
  by rewrite bool_decide_eq_true_2.
Qed.

Lemma last_token_is_punct_witness :
  isspace 46 = false /\
  _process sample_converter demo_sentences demo_records = Ok demo_output /\
  Forall (fun s => exists t, last (sent_tokens s) = Some t /\
                             pos (morphological_parameters t) = lit "PUNCT") demo_output.
Proof.
  split; [reflexivity|]. split; [vm_compute; reflexivity|].
  apply (last_token_is_punct sample_converter demo_sentences demo_records).
  - reflexivity.
  - vm_compute. reflexivity.
Defined.

(** ** [_process]: when it fails and when it cannot *)

Section ProcessFailure.
Context `{UnicodeData}.
Variable tc : TagConverter.

Lemma collect_tokens_Forall (P : AnalyzerRecord -> Prop) sentence result :
  Forall P result ->
  Forall P (collect_tokens sentence result []).1 /\
  Forall P (collect_tokens sentence result []).2.
Proof.
  intros Hall.
  destruct (collect_tokens_prefix sentence result []) as (consumed & Hres & Htok).
  rewrite Hres in Hall. apply Forall_app in Hall as [Hc Hrest].
  split; [|exact Hrest]. rewrite Htok. simpl.
  apply Forall_forall. intros r Hr.
  apply list_elem_of_In, List.filter_In in Hr as [Hr _].
  rewrite Forall_forall in Hc. apply Hc. by apply list_elem_of_In.
Qed.

Lemma build_token_conversion_fails idx token e :
  build_token tc idx token = Raise e <-> conversion_fails tc token e.
Proof.
  unfold build_token, conversion_fails. split.
  - intros Hr. apply bind_Raise in Hr as [Hr|(m & _ & Hr)]; [|discriminate].
    destruct (analysis token) as [[|first rest]|]; try discriminate.
    exists first, rest. split; [reflexivity|].
    apply bind_Raise in Hr as [Hr|(p & Hp & Hr)]; [by left|].
    right. exists p. split; [exact Hp|].
    apply bind_Raise in Hr as [Hr|(t & _ & Hr)]; [exact Hr|discriminate].
  - intros (first & rest & -> & [Hpos|(p & Hp & Hm)]); simpl.
    + by rewrite Hpos.
    + by rewrite Hp, Hm.
Qed.

Lemma build_tokens_Raise_inv idx tokens e :
  build_tokens tc idx tokens = Raise e ->
  exists token, token ∈ tokens /\ conversion_fails tc token e.
Proof.
  revert idx. induction tokens as [|token rest IH]; intros idx; cbn [build_tokens];
    [discriminate|].
  intros Hr. apply bind_Raise in Hr as [Hr|(ct & _ & Hr)].
  - exists token. split; [apply list_elem_of_here|].
    by apply (build_token_conversion_fails idx).
  - apply bind_Raise in Hr as [Hr|(cts & _ & Hr)]; [|discriminate].
    destruct (IH _ Hr) as (token' & Hin & Hf).
    exists token'. split; [by apply list_elem_of_further|exact Hf].
Qed.

Lemma process_sentences_Raise_inv idx sentences result e :
  process_sentences tc idx sentences result = Raise e ->
  exists tokens token,
    tokens ∈ groups sentences result /\ token ∈ tokens /\
    conversion_fails tc token e.
Proof.
  revert idx result.
  induction sentences as [|sentence rest IH]; intros idx result;
    cbn [process_sentences groups]; [discriminate|].
  destruct (collect_tokens sentence result []) as [tokens result'].
  intros Hr. apply bind_Raise in Hr as [Hr|(cts & _ & Hr)].
  - destruct (build_tokens_Raise_inv _ _ _ Hr) as (token & Hin & Hf).
    exists (tokens ++ [terminal]), token. split; [apply list_elem_of_here|by split].
  - apply bind_Raise in Hr as [Hr|(ss & _ & Hr)]; [|discriminate].
    destruct (IH _ _ Hr) as (tokens' & token & Hg & Hin & Hf).
    exists tokens', token. split; [by apply list_elem_of_further|by split].
Qed.
End ProcessFailure.

(** X4. When no record of the stream carries an analysis, [_process]
    cannot fail, whatever the mapping table: every token it returns has
    its surface text as lemma, no features, and one of the labels PUNCT,
    NUM and X. *)
Theorem unanalysed_stream_never_fails `{UnicodeData} tc sentences records :
  Forall unanalysed records ->
  exists sents,
    _process tc sentences records = Ok sents /\
    Forall (fun s =>
              Forall (fun t =>
                        lemma (morphological_parameters t) = tok_text t /\
                        tags (morphological_parameters t) = [] /\
                        pos (morphological_parameters t) ∈ fallback_labels)
                     (sent_tokens s)) sents.
Proof.
  unfold _process. generalize 0%Z. intros idx Hall. revert idx records Hall.
  induction sentences as [|sentence rest IH]; intros idx result Hall.
  - exists []. split; [reflexivity|constructor].
  - cbn [process_sentences].
    destruct (collect_tokens_Forall unanalysed sentence result Hall) as [Htok Hrest].
    destruct (collect_tokens sentence result []) as [tokens result']. simpl in Htok, Hrest.
    destruct (build_tokens_unanalysed tc 1 (tokens ++ [terminal])) as (cts & -> & Hcts).
    { apply Forall_app. split; [exact Htok|]. constructor; [by left|constructor]. }
    cbn [bind]. destruct (IH (idx + 1)%Z result' Hrest) as (sents & -> & Hsents).
    cbn [bind]. eexists. split; [reflexivity|]. constructor; [exact Hcts|exact Hsents].
Qed.

Lemma unanalysed_stream_never_fails_witness :
  Forall unanalysed doc2_records /\
  exists sents,
    _process (mkConverter [] [] [] [] [] [] ∅) doc2_sentences doc2_records = Ok sents /\
    Forall (fun s =>
              Forall (fun t =>
                        lemma (morphological_parameters t) = tok_text t /\
                        tags (morphological_parameters t) = [] /\
                        pos (morphological_parameters t) ∈ fallback_labels)
                     (sent_tokens s)) sents.
Proof.
  assert (Hall : Forall unanalysed doc2_records).
  { unfold doc2_records, unanalysed, word, plain.
    repeat (constructor; [simpl; auto|]). constructor. }
  split; [exact Hall|].
  exact (unanalysed_stream_never_fails (mkConverter [] [] [] [] [] [] ∅)
           doc2_sentences doc2_records Hall).
Defined.

(** X5. Every error [_process] raises is the error of the tag conversion
    of the first analysis candidate of a record aligned with some sentence;
    conversely, one aligned record whose conversion fails makes [_process]
    fail.  Records that no sentence accepts cannot make it fail. *)
Theorem process_fails_on_aligned_records `{UnicodeData} tc sentences records :
  (forall e, _process tc sentences records = Raise e ->
     exists tokens token,
       tokens ∈ groups sentences records /\ token ∈ tokens /\
       conversion_fails tc token e) /\
  (forall tokens token e,
     tokens ∈ groups sentences records -> token ∈ tokens ->
     conversion_fails tc token e ->
     exists e', _process tc sentences records = Raise e').
Proof.
  split.
  - intros e. apply process_sentences_Raise_inv.
  - intros tokens token e Hg Hin Hf.
    destruct (build_tokens_Raise tc 1 tokens token e Hin) as [e1 He1].
    { intros i. by apply build_token_conversion_fails. }
    exact (process_sentences_Raise tc 0 sentences records tokens e1 Hg He1).
Qed.

Lemma process_fails_on_aligned_records_witness :
  _process sample_converter [lit "Кот."] [analysed "Кот" "кот" "Q,муж"] =
    Raise (KeyError (lit "Q")) /\
  exists tokens token,
    tokens ∈ groups [lit "Кот."] [analysed "Кот" "кот" "Q,муж"] /\ token ∈ tokens /\
    conversion_fails sample_converter token (KeyError (lit "Q")).
Proof.
  split; [vm_compute; reflexivity|].
  apply (proj1 (process_fails_on_aligned_records sample_converter [lit "Кот."]
                  [analysed "Кот" "кот" "Q,муж"])).
  vm_compute. reflexivity.
Defined.

(** ** [_process]: what reaches the later sentences *)

Lemma groups_exhausted `{UnicodeData} sentences :
  groups sentences [] = List.map (fun _ => [terminal]) sentences.
Proof.
  induction sentences as [|sentence rest IH]; [reflexivity|].
  simpl. by rewrite IH.
Qed.

(** X6. When no record of the stream passes the stop test of the first
    sentence (the sentence text less the record's text still has an
    alphanumeric character), the first sentence reads the whole stream: it
    takes every record it accepts, and each later sentence is left with the
    terminal record alone. *)
Theorem first_sentence_reads_whole_stream `{UnicodeData} sentence rest records :
  Forall (never_stops sentence) records ->
  groups (sentence :: rest) records =
    (List.filter (accepted sentence) records ++ [terminal]) ::
    List.map (fun _ => [terminal]) rest.
Proof.
  intros Hall. cbn [groups].
  rewrite (collect_tokens_reads_all sentence records [] Hall).
  by rewrite groups_exhausted.
Qed.

Lemma first_sentence_reads_whole_stream_witness :
  Forall (never_stops (lit "Кот спит.")) doc2_records /\
  groups doc2_sentences doc2_records =
    [[word "Кот"; word "спит"; terminal]; [terminal]].
Proof.
  assert (Hall : Forall (never_stops (lit "Кот спит.")) doc2_records).
  { unfold doc2_records, never_stops.
    repeat (constructor; [intros _; vm_compute; reflexivity|]). constructor. }
  split; [exact Hall|].
  exact (first_sentence_reads_whole_stream (lit "Кот спит.") [lit "Пёс ест."]
           doc2_records Hall).
Defined.

Section FirstCandidate.
Context `{UnicodeData}.
Variable tc : TagConverter.

Lemma collect_tokens_keep_first sentence result tokens :
  collect_tokens sentence (keep_first <$> result) (keep_first <$> tokens) =
  ((keep_first <$> (collect_tokens sentence result tokens).1),
   (keep_first <$> (collect_tokens sentence result tokens).2)).
Proof.
  revert tokens. induction result as [|token result' IH]; intros tokens; [reflexivity|].
  rewrite fmap_cons. cbn [collect_tokens].
  change (text (keep_first token)) with (text token).
  destruct (contains (text token) sentence); cbn [negb]; [|apply IH].
  assert (Htok : (if any_isalnum (text token)
                  then (keep_first <$> tokens) ++ [keep_first token]
                  else keep_first <$> tokens) =
                 keep_first <$> (if any_isalnum (text token)
                                 then tokens ++ [token] else tokens)).
  { destruct (any_isalnum (text token)); [by rewrite fmap_app|reflexivity]. }
  cbv zeta. rewrite Htok.
  destruct (any_isalnum (sub_first (text token) sentence)); cbn [negb];
    [apply IH|reflexivity].
Qed.

Lemma build_token_keep_first idx token :
  build_token tc idx (keep_first token) = build_token tc idx token.
Proof.
  unfold build_token, keep_first. simpl.
  destruct (analysis token) as [[|first rest]|]; reflexivity.
Qed.

Lemma build_tokens_keep_first idx tokens :
  build_tokens tc idx (keep_first <$> tokens) = build_tokens tc idx tokens.
Proof.
  revert idx. induction tokens as [|token rest IH]; intros idx; [reflexivity|].
  rewrite fmap_cons. cbn [build_tokens]. by rewrite build_token_keep_first, IH.
Qed.

End FirstCandidate.

(** X7. Only the first analysis candidate of a record is ever used:
    removing the other candidates from every record of the stream changes
    neither the sentences [_process] returns nor the error it raises. *)
Theorem only_first_candidate_counts `{UnicodeData} tc sentences records :
  _process tc sentences (List.map keep_first records) =
  _process tc sentences records.
Proof.
  unfold _process. generalize 0%Z. intros idx. revert idx records.
  induction sentences as [|sentence rest IH]; intros idx result; [reflexivity|].
  cbn [process_sentences].
  pose proof (collect_tokens_keep_first sentence result []) as Hc.
  change (keep_first <$> []) with (@nil AnalyzerRecord) in Hc.
  change (List.map keep_first result) with (keep_first <$> result). rewrite Hc.
  destruct (collect_tokens sentence result []) as [tokens result']. cbn [fst snd].
  change [terminal] with (keep_first <$> [terminal]).
  rewrite <- fmap_app, build_tokens_keep_first.
  change (keep_first <$> result') with (List.map keep_first result').
  by rewrite IH.
Qed.

(** ** The tag converter: what is extracted from a tag string *)

Lemma search_None P s :
  search P s = None <-> Forall (fun c => P c = false) s.
Proof.
  unfold search. induction s as [|c s IH]; simpl.
  - split; [constructor|reflexivity].
  - destruct (P c) eqn:Hc; simpl.
    + rewrite Hc. split; [discriminate|]. intros Hall.
      apply Forall_cons in Hall as [Hc' _]. congruence.
    + rewrite IH. split; [by constructor|]. intros Hall.
      by apply Forall_cons in Hall as [_ Hall].
Qed.

Lemma takewhile_run P code post :
  Forall (fun c => P c = true) code ->
  match post with [] => True | c :: _ => P c = false end ->
  takewhile P (code ++ post) = code.
Proof.
  intros Hcode Hpost. induction Hcode as [|c code Hc _ IH]; simpl.
  - destruct post as [|c post]; [reflexivity|]. simpl. by rewrite Hpost.
  - by rewrite Hc, IH.
Qed.

Lemma search_run P pre code post :
  Forall (fun c => P c = false) pre ->
  code <> [] ->
  Forall (fun c => P c = true) code ->
  match post with [] => True | c :: _ => P c = false end ->
  search P (pre ++ code ++ post) = Some code.
Proof.
  intros Hpre Hne Hcode Hpost. unfold search.
  assert (Hdrop : dropwhile (fun c => negb (P c)) (pre ++ code ++ post) = code ++ post).
  { induction Hpre as [|c pre Hc _ IH]; simpl.
    - destruct code as [|c code]; [congruence|]. simpl.
      apply Forall_cons in Hcode as [Hc _]. by rewrite Hc.
    - by rewrite Hc. }
  rewrite Hdrop, (takewhile_run P code post Hcode Hpost).
  destruct code; [congruence|reflexivity].
Qed.

(** X8. [convert_pos] raises TypeError exactly on the tag strings without
    an upper-case letter A-Z, whatever the table holds. *)
Theorem convert_pos_TypeError_iff (tc : TagConverter) (tags : str) :
  convert_pos tc tags = Raise TypeError <->
  Forall (fun c => class_A_Z c = false) tags.
Proof.
  rewrite <- search_None. unfold convert_pos.
  destruct (search class_A_Z tags) as [code|]; [|split; reflexivity].
  split; [|discriminate]. intros Hr.
  apply bind_Raise in Hr as [Hr|(m & _ & Hr)]; apply getitem_Raise in Hr; discriminate.
Qed.

(** X9. [convert_pos] looks up the leftmost maximal run of upper-case
    letters and nothing else: for a tag string [pre ++ code ++ post] in
    which [pre] has no upper-case letter, [code] is a non-empty run of
    them and [post] does not continue the run, the result is the entry of
    [code] in the POS category (KeyError without one), whatever upper-case
    letters [post] holds further on. *)
Theorem convert_pos_leftmost_run (tc : TagConverter) (pre code post : str) :
  Forall (fun c => class_A_Z c = false) pre ->
  code <> [] ->
  Forall (fun c => class_A_Z c = true) code ->
  match post with [] => True | c :: _ => class_A_Z c = false end ->
  convert_pos tc (pre ++ code ++ post) =
    match _tag_mapping tc !! cat_pos tc with
    | None => Raise (KeyError (cat_pos tc))
    | Some m =>
        match m !! code with
        | Some label => Ok label
        | None => Raise (KeyError code)
        end
    end.
Proof.
  intros Hpre Hne Hcode Hpost. unfold convert_pos.
  rewrite (search_run _ pre code post Hpre Hne Hcode Hpost).
  unfold getitem. destruct (_tag_mapping tc !! cat_pos tc) as [m|]; reflexivity.
Qed.

Lemma convert_pos_leftmost_run_witness :
  convert_pos sample_converter (lit "им,S,муж=V,A") = Ok (lit "NOUN").
Proof.
  apply (convert_pos_leftmost_run sample_converter (lit "им,") (lit "S") (lit ",муж=V,A")).
  - repeat constructor.
  - discriminate.
  - repeat constructor.
  - reflexivity.
Defined.

Lemma findall_from_nil P s :
  Forall (fun c => P c = false) s -> findall_from P [] s = [].
Proof.
  induction 1 as [|c s Hc _ IH]; simpl; [reflexivity|]. by rewrite Hc, IH.
Qed.

Lemma findall_from_cons P cur s :
  cur <> [] \/ (exists c, c ∈ s /\ P c = true) ->
  findall_from P cur s <> [].
Proof.
  revert cur. induction s as [|c s IH]; intros cur Hor; simpl.
  - destruct Hor as [Hcur|(c & Hc & _)]; [by destruct cur|inversion Hc].
  - destruct (P c) eqn:HPc.
    + apply IH. left. by destruct cur.
    + destruct Hor as [Hcur|(d & Hd & HPd)].
      * destruct cur; [congruence|discriminate].
      * apply elem_of_cons in Hd as [->|Hd]; [congruence|].
        intros Happ. apply app_eq_nil in Happ as [_ Hnil].
        revert Hnil. apply IH. right. eauto.
Qed.

(** X10. A tag string without a letter of the range а-я has no feature
    code: [convert_morphological_tags] returns the empty string and never
    consults the table, so it succeeds on any table. *)
Theorem no_codes_no_features (tc : TagConverter) (tags : str) :
  Forall (fun c => class_a_ya c = false) tags ->
  convert_morphological_tags tc tags = Ok [].
Proof.
  intros Hall. unfold convert_morphological_tags, findall.
  by rewrite (findall_from_nil _ _ Hall).
Qed.

Lemma no_codes_no_features_witness :
  convert_morphological_tags (mkConverter [] [] [] [] [] [] ∅) (lit "S,ADV=3-Ё") = Ok [].
Proof.
  apply no_codes_no_features. repeat constructor.
Defined.

(** X11. On a table without the first feature category, any tag string
    with a letter of the range а-я makes [convert_morphological_tags] raise
    KeyError for that category's name. *)
Theorem missing_category_raises_KeyError (tc : TagConverter) (tags : str) :
  _tag_mapping tc !! cat_case tc = None ->
  (exists c, c ∈ tags /\ class_a_ya c = true) ->
  convert_morphological_tags tc tags = Raise (KeyError (cat_case tc)).
Proof.
  intros Hmiss Hex. unfold convert_morphological_tags, findall.
  pose proof (findall_from_cons class_a_ya [] tags (or_intror Hex)) as Hne.
  destruct (findall_from class_a_ya [] tags) as [|tag rest]; [congruence|].
  cbn [assign_tags feature_categories assign_tag]. unfold getitem. by rewrite Hmiss.
Qed.

Lemma missing_category_raises_KeyError_witness :
  convert_morphological_tags
    (mkConverter (lit "POS") (lit "Case") (lit "Number") (lit "Gender")
                 (lit "Animacy") (lit "Tense") ∅)
    (lit "S,им") = Raise (KeyError (lit "Case")).
Proof.
  apply (missing_category_raises_KeyError
           (mkConverter (lit "POS") (lit "Case") (lit "Number") (lit "Gender")
                        (lit "Animacy") (lit "Tense") ∅) (lit "S,им")).
  - reflexivity.
  - exists 1080. split; [|reflexivity].
    change (lit "S,им") with [83; 44; 1080; 1084].
    do 2 apply list_elem_of_further. apply list_elem_of_here.
Defined.

(** ** The tag converter: what the features are made of *)

Section Features.
Variable tc : TagConverter.

Lemma assign_tag_Ok_inv tag categories format_tags format_tags' :
  assign_tag tc tag categories format_tags = Ok format_tags' ->
  format_tags' = format_tags \/
  exists category value,
    category ∈ categories /\ mapped tc category tag = Some value /\
    has_key category format_tags = false /\
    format_tags' = format_tags ++ [(category, value)].
Proof.
  induction categories as [|category rest IH]; cbn [assign_tag].
  - intros [= <-]. by left.
  - intros Ha. apply bind_Ok in Ha as (m & Hm & Ha).
    unfold getitem in Hm. destruct (_tag_mapping tc !! category) as [m'|] eqn:Ht;
      [|discriminate]. injection Hm as ->.
    assert (Hrest : assign_tag tc tag rest format_tags = Ok format_tags' ->
                    format_tags' = format_tags \/
                    exists category0 value,
                      category0 ∈ category :: rest /\
                      mapped tc category0 tag = Some value /\
                      has_key category0 format_tags = false /\
                      format_tags' = format_tags ++ [(category0, value)]).
    { intros Hr. destruct (IH Hr) as [->|(c & v & Hc & Hrest)]; [by left|].
      right. exists c, v. split; [by apply list_elem_of_further|exact Hrest]. }
    destruct (m !! tag) as [v|] eqn:Hv; [|exact (Hrest Ha)].
    destruct (has_key category format_tags) eqn:Hk; cbn [negb] in Ha; [exact (Hrest Ha)|].
    injection Ha as <-. right. exists category, v.
    split; [apply list_elem_of_here|]. split; [|by split].
    unfold mapped. by rewrite Ht.
Qed.

Lemma assign_tags_Ok_inv (all : list str) tag_list format_tags format_tags' :
  (forall tag, tag ∈ tag_list -> tag ∈ all) ->
  NoDup format_tags.*1 ->
  Forall (fun kv => kv.1 ∈ feature_categories tc /\
                    exists tag, tag ∈ all /\ mapped tc kv.1 tag = Some kv.2)
         format_tags ->
  assign_tags tc tag_list format_tags = Ok format_tags' ->
  NoDup format_tags'.*1 /\
  Forall (fun kv => kv.1 ∈ feature_categories tc /\
                    exists tag, tag ∈ all /\ mapped tc kv.1 tag = Some kv.2)
         format_tags' /\
  (length format_tags' <= length format_tags + length tag_list)%nat.
Proof.
  revert format_tags. induction tag_list as [|tag rest IH];
    intros format_tags Hall Hnd Hq; cbn [assign_tags].
  - intros [= <-]. repeat split; [assumption..|simpl; lia].
  - intros Ha. apply bind_Ok in Ha as (fmt1 & H1 & Ha).
    assert (Hall' : forall t, t ∈ rest -> t ∈ all).
    { intros t Ht. apply Hall. by apply list_elem_of_further. }
    destruct (assign_tag_Ok_inv _ _ _ _ H1) as [->|(c & v & Hc & Hm & Hk & ->)].
    + destruct (IH _ Hall' Hnd Hq Ha) as (Hnd' & Hq' & Hlen).
      repeat split; [assumption..|simpl; lia].
    + destruct (IH (format_tags ++ [(c, v)]) Hall') as (Hnd' & Hq' & Hlen);
        [| |exact Ha|].
      * rewrite fmap_app. apply NoDup_app. split; [exact Hnd|]. split.
        -- intros k Hk1 Hk2. apply list_elem_of_singleton in Hk2. subst k.
           apply has_key_false in Hk. contradiction.
        -- apply NoDup_singleton.
      * apply Forall_app. split; [exact Hq|]. constructor; [|constructor].
        split; [exact Hc|]. exists tag. split; [|exact Hm].
        apply Hall. apply list_elem_of_here.
      * repeat split; [assumption..|].
        rewrite length_app in Hlen. simpl in *. lia.
Qed.
End Features.

(** X12. Whatever [convert_morphological_tags] returns is made of at most
    five [category=value] pairs, and of no more pairs than the tag string
    has codes; the categories are distinct feature categories, and every
    value is the entry, in its category, of one of the codes of the tag
    string. *)
Theorem features_come_from_the_table (tc : TagConverter) (tags out : str) :
  convert_morphological_tags tc tags = Ok out ->
  exists format_tags,
    out = join (lit "|") (List.map render_item (sorted format_tags)) /\
    (length format_tags <= 5)%nat /\
    (length format_tags <= length (findall class_a_ya tags))%nat /\
    NoDup format_tags.*1 /\
    Forall (fun kv => kv.1 ∈ feature_categories tc /\
                      exists tag, tag ∈ findall class_a_ya tags /\
                                  mapped tc kv.1 tag = Some kv.2) format_tags.
Proof.
  unfold convert_morphological_tags. intros Hc.
  apply bind_Ok in Hc as (fmt & Ha & Hc). injection Hc as <-.
  destruct (assign_tags_Ok_inv tc (findall class_a_ya tags) _ [] fmt
              (fun _ Ht => Ht) (NoDup_nil_2) (Forall_nil_2 _) Ha) as (Hnd & Hq & Hlen).
  exists fmt. split; [reflexivity|]. split; [|split; [simpl in Hlen; lia|by split]].
  assert (Hsub : fmt.*1 ⊆+ feature_categories tc).
  { apply NoDup_submseteq; [exact Hnd|]. intros k Hk.
    apply list_elem_of_fmap in Hk as (kv & -> & Hkv).
    rewrite Forall_forall in Hq. by destruct (Hq kv Hkv). }
  apply submseteq_length in Hsub. rewrite length_fmap in Hsub. exact Hsub.
Qed.

Lemma features_come_from_the_table_witness :
  convert_morphological_tags sample_converter (lit "S,жен,им,жен,ед,ед,зват") =
    Ok (lit "Case=Acc|Gender=Fem|Number=Sing") /\
  exists format_tags,
    lit "Case=Acc|Gender=Fem|Number=Sing" =
      join (lit "|") (List.map render_item (sorted format_tags)) /\
    (length format_tags <= 5)%nat /\
    (length format_tags <= length (findall class_a_ya (lit "S,жен,им,жен,ед,ед,зват")))%nat /\
    NoDup format_tags.*1 /\
    Forall (fun kv => kv.1 ∈ feature_categories sample_converter /\
                      exists tag, tag ∈ findall class_a_ya (lit "S,жен,им,жен,ед,ед,зват") /\
                                  mapped sample_converter kv.1 tag = Some kv.2) format_tags.
Proof.
  split; [vm_compute; reflexivity|].
  apply (features_come_from_the_table sample_converter (lit "S,жен,им,жен,ед,ед,зват")).
  vm_compute. reflexivity.
Defined.

(** ** The CONLL-U line: its fields can be read back *)

Lemma app_sep_inj (c : char) (p1 p2 r1 r2 : str) :
  c ∉ p1 -> c ∉ p2 -> p1 ++ c :: r1 = p2 ++ c :: r2 -> p1 = p2 /\ r1 = r2.
Proof.
  revert p2. induction p1 as [|x p1 IH]; intros [|y p2] H1 H2; simpl; intros Heq.
  - injection Heq as ->. by split.
  - injection Heq as <- _. exfalso. apply H2. apply list_elem_of_here.
  - injection Heq as -> _. exfalso. apply H1. apply list_elem_of_here.
  - injection Heq as -> Heq. apply not_elem_of_cons in H1 as [_ H1].
    apply not_elem_of_cons in H2 as [_ H2].
    destruct (IH p2 H1 H2 Heq) as [-> ->]. by split.
Qed.

Lemma join_cons_cons sep p q ps :
  join sep (p :: q :: ps) = p ++ sep ++ join sep (q :: ps).
Proof. reflexivity. Qed.

Lemma join_sep_inj (c : char) (l1 l2 : list str) :
  length l1 = length l2 ->
  Forall (fun p => c ∉ p) l1 -> Forall (fun p => c ∉ p) l2 ->
  join [c] l1 = join [c] l2 -> l1 = l2.
Proof.
  revert l2. induction l1 as [|p l1 IH]; intros [|q l2] Hlen H1 H2 Heq;
    try discriminate; [reflexivity|].
  apply Forall_cons in H1 as [Hp H1]. apply Forall_cons in H2 as [Hq H2].
  destruct l1 as [|p' l1], l2 as [|q' l2]; try discriminate.
  - simpl in Heq. by subst.
  - rewrite !join_cons_cons in Heq. simpl in Heq.
    destruct (app_sep_inj c p q _ _ Hp Hq Heq) as [-> Hrest].
    f_equal. apply IH; [simpl in Hlen |- *; lia|assumption..].
Qed.

Lemma digits_of_uint_inj u1 u2 :
  digits_of_uint u1 = digits_of_uint u2 -> u1 = u2.
Proof.
  revert u2. induction u1 as [|u1 IH|u1 IH|u1 IH|u1 IH|u1 IH|u1 IH|u1 IH|u1 IH|u1 IH|u1 IH];
    intros [|u2|u2|u2|u2|u2|u2|u2|u2|u2|u2]; simpl; intros Heq;
    try discriminate; try reflexivity;
    injection Heq as Heq; f_equal; by apply IH.
Qed.

Lemma digits_of_uint_range u :
  Forall (fun c => 48 <= c <= 57) (digits_of_uint u).
Proof. induction u; simpl; constructor; (lia || assumption). Qed.

Lemma str_of_int_inj z1 z2 : str_of_int z1 = str_of_int z2 -> z1 = z2.
Proof.
  unfold str_of_int. intros Heq.
  rewrite <- (DecimalZ.of_to z1), <- (DecimalZ.of_to z2). f_equal.
  destruct (Z.to_int z1) as [u1|u1], (Z.to_int z2) as [u2|u2].
  - f_equal. by apply digits_of_uint_inj.
  - pose proof (digits_of_uint_range u1) as Hr. rewrite Heq in Hr.
    apply Forall_cons in Hr as [Hr _]. lia.
  - pose proof (digits_of_uint_range u2) as Hr. rewrite <- Heq in Hr.
    apply Forall_cons in Hr as [Hr _]. lia.
  - injection Heq as Heq. f_equal. by apply digits_of_uint_inj.
Qed.

Lemma str_of_int_no_tab z : 9 ∉ str_of_int z.
Proof.
  unfold str_of_int. intros Hin.
  assert (Hd : forall u, 9 ∉ digits_of_uint u).
  { intros u Hu. pose proof (digits_of_uint_range u) as Hr.
    rewrite Forall_forall in Hr. specialize (Hr _ Hu). lia. }
  destruct (Z.to_int z) as [u|u]; [exact (Hd u Hin)|].
  apply elem_of_cons in Hin as [Heq|Hin]; [discriminate|exact (Hd u Hin)].
Qed.

Lemma spec_feats_no_tab t b : tab_free t -> 9 ∉ spec_feats t b.
Proof.
  intros (_ & _ & _ & Ht). unfold spec_feats.
  destruct (negb b || negb (truthy (tags (morphological_parameters t)))); [|exact Ht].
  change (lit "_") with [95]. intros Hin. apply list_elem_of_singleton in Hin. discriminate.
Qed.

(** X13. The rendered line determines the fields of a token that holds no
    tab: two such tokens with the same line, under the same flag, have the
    same position, surface text, lemma and POS, and the same features
    field. *)
Theorem conllu_line_determines_fields (t1 t2 : ConlluToken) (b : bool) :
  tab_free t1 -> tab_free t2 ->
  get_conllu_text t1 b = get_conllu_text t2 b ->
  position t1 = position t2 /\
  tok_text t1 = tok_text t2 /\
  lemma (morphological_parameters t1) = lemma (morphological_parameters t2) /\
  pos (morphological_parameters t1) = pos (morphological_parameters t2) /\
  spec_feats t1 b = spec_feats t2 b.
Proof.
  intros Hf1 Hf2 Heq.
  assert (Hfields : forall t, tab_free t ->
            Forall (fun p => 9 ∉ p)
              [str_of_int (position t); tok_text t; lemma (morphological_parameters t);
               pos (morphological_parameters t); lit "_"; spec_feats t b;
               lit "0"; lit "root"; lit "_"; lit "_"]).
  { intros t Ht. pose proof (spec_feats_no_tab t b Ht) as Hs.
    destruct Ht as (? & ? & ? & ?).
    repeat (constructor; [first [assumption | apply str_of_int_no_tab
                                 | vm_compute; by intros ?%list_elem_of_In; firstorder discriminate ]|]).
    constructor. }
  assert (Hline : forall t,
            get_conllu_text t b =
            join [9] [str_of_int (position t); tok_text t;
                      lemma (morphological_parameters t);
                      pos (morphological_parameters t); lit "_"; spec_feats t b;
                      lit "0"; lit "root"; lit "_"; lit "_"]).
  { intros t. rewrite get_conllu_text_spec. reflexivity. }
  rewrite !Hline in Heq.
  apply join_sep_inj in Heq; [|reflexivity|by apply Hfields..].
  injection Heq as Hp Ht Hl Hpos Hfe.
  repeat split; try assumption. by apply str_of_int_inj.
Qed.

Lemma conllu_line_determines_fields_witness :
  tab_free (mkToken (lit "Кот") (mkDTO (lit "кот") (lit "NOUN") (lit "Case=Nom")) 1) /\
  position (mkToken (lit "Кот") (mkDTO (lit "кот") (lit "NOUN") (lit "Case=Nom")) 1) = 1%Z.
Proof.
  assert (Hfree : tab_free
            (mkToken (lit "Кот") (mkDTO (lit "кот") (lit "NOUN") (lit "Case=Nom")) 1)).
  { repeat split; vm_compute; intros Hin%list_elem_of_In; simpl in Hin;
      firstorder discriminate. }
  split; [exact Hfree|].
  exact (proj1 (conllu_line_determines_fields _ _ true Hfree Hfree eq_refl)).
Defined.

Lemma count_char_app c s1 s2 :
  count_char c (s1 ++ s2) = (count_char c s1 + count_char c s2)%nat.
Proof. apply count_occ_app. Qed.

Lemma count_char_str_of_int z : count_char 9 (str_of_int z) = 0%nat.
Proof.
  apply count_occ_not_In. intros Hin. apply list_elem_of_In in Hin.
  exact (str_of_int_no_tab z Hin).
Qed.

(** X14. Nothing is escaped in the rendered line: it has nine tabs plus
    the tabs of the surface text, the lemma, the POS and the features
    field, hence exactly ten tab-separated fields when those hold no
    tab. *)
Theorem conllu_line_tab_count (t : ConlluToken) (b : bool) :
  count_char 9 (get_conllu_text t b) =
    (9 + count_char 9%N (tok_text t)
       + count_char 9%N (lemma (morphological_parameters t))
       + count_char 9%N (pos (morphological_parameters t))
       + count_char 9%N (spec_feats t b))%nat.
Proof.
  rewrite get_conllu_text_spec. unfold spec_conllu_line.
  rewrite !count_char_app, count_char_str_of_int.
  change (count_char 9 TAB) with 1%nat.
  change (count_char 9 (lit "_")) with 0%nat.
  change (count_char 9 (lit "0")) with 0%nat.
  change (count_char 9 (lit "root")) with 0%nat.
  lia.
Qed.

(** ** The cleaned sentence *)

Section CleanedSentence.
Context `{UnicodeData}.

Lemma cleaned_loop_concat tokens sentence :
  cleaned_loop tokens sentence =
  sentence ++ concat (List.map (fun c => c ++ lit " ")
                               (List.filter truthy (List.map get_cleaned tokens))).
Proof.
  revert sentence. induction tokens as [|token rest IH]; intros sentence; simpl.
  - by rewrite app_nil_r.
  - destruct (truthy (get_cleaned token)); simpl; rewrite IH; [|reflexivity].
    by rewrite <- !app_assoc.
Qed.

Lemma concat_join_space (l : list str) :
  concat (List.map (fun c => c ++ lit " ") l) =
  match l with [] => [] | _ => join (lit " ") l ++ lit " " end.
Proof.
  induction l as [|p l IH]; [reflexivity|].
  simpl concat. rewrite IH. destruct l as [|q l]; [apply app_nil_r|].
  rewrite join_cons_cons. by rewrite <- !app_assoc.
Qed.

Lemma dropwhile_snoc P s c :
  P c = true ->
  dropwhile P (s ++ [c]) = dropwhile P s ++ [c] \/
  (dropwhile P s = [] /\ dropwhile P (s ++ [c]) = []).
Proof.
  intros Hc. induction s as [|x s IH]; simpl.
  - rewrite Hc. by right.
  - destruct (P x); [exact IH|by left].
Qed.

Lemma strip_snoc s c : isspace c = true -> strip (s ++ [c]) = strip s.
Proof.
  intros Hc. unfold strip.
  destruct (dropwhile_snoc isspace s c Hc) as [->|[-> ->]]; [|reflexivity].
  rewrite reverse_snoc. simpl. by rewrite Hc.
Qed.

Lemma head_dropwhile P s c : head (dropwhile P s) = Some c -> P c = false.
Proof.
  induction s as [|x s IH]; simpl; [discriminate|].
  destruct (P x) eqn:Hx; [exact IH|]. simpl. by intros [= <-].
Qed.

Lemma last_dropwhile P (s : str) c :
  last (dropwhile P s) = Some c -> last s = Some c.
Proof.
  induction s as [|x s IH]; simpl; [discriminate|].
  destruct (P x) eqn:Hx; [|by intros].
  intros Hl. specialize (IH Hl). destruct s; [discriminate|exact IH].
Qed.

Lemma strip_ends s :
  (forall c, head (strip s) = Some c -> isspace c = false) /\
  (forall c, last (strip s) = Some c -> isspace c = false).
Proof.
  unfold strip. split; intros c.
  - rewrite head_reverse. intros Hl. apply last_dropwhile in Hl.
    rewrite last_reverse in Hl. exact (head_dropwhile _ _ _ Hl).
  - rewrite last_reverse. apply head_dropwhile.
Qed.
End CleanedSentence.

(** X15. Where the space is a whitespace character of the runtime, the
    cleaned sentence is the cleaned tokens that are not empty, joined by
    single spaces and stripped; in any case it neither starts nor ends
    with a whitespace character. *)
Theorem cleaned_sentence_is_joined_tokens `{UnicodeData} (s : ConlluSentence) :
  (isspace 32 = true ->
   get_cleaned_sentence s =
     strip (join (lit " ")
                 (List.filter truthy (List.map get_cleaned (sent_tokens s))))) /\
  (forall c, head (get_cleaned_sentence s) = Some c -> isspace c = false) /\
  (forall c, last (get_cleaned_sentence s) = Some c -> isspace c = false).
Proof.
  split; [intros Hsp|apply strip_ends].
  unfold get_cleaned_sentence. rewrite cleaned_loop_concat, concat_join_space. simpl.
  destruct (List.filter truthy (List.map get_cleaned (sent_tokens s))) as [|p l];
    [reflexivity|].
  change (lit " ") with [32]. by apply strip_snoc.
Qed.

Lemma cleaned_sentence_is_joined_tokens_witness :
  isspace 32 = true /\
  get_cleaned_sentence
    (mkSentence 1 (lit "Кот спит.")
       [new_ConlluToken (lit "Кот"); new_ConlluToken (lit " - ");
        new_ConlluToken (lit "спит"); new_ConlluToken (lit ".")]) =
  lit "кот    спит".
Proof.
  split; [reflexivity|].
  rewrite (proj1 (@cleaned_sentence_is_joined_tokens basic_table
                    (mkSentence 1 (lit "Кот спит.")
                       [new_ConlluToken (lit "Кот"); new_ConlluToken (lit " - ");
                        new_ConlluToken (lit "спит"); new_ConlluToken (lit ".")]))
             eq_refl).
  vm_compute. reflexivity.
Defined.

(** ** [CorpusManager._validate_dataset] *)

Lemma insert_int_Permutation x l : insert_int x l ≡ₚ x :: l.
Proof.
  induction l as [|y l IH]; simpl; [reflexivity|].
  destruct (y <? x)%Z; [|reflexivity]. rewrite IH. apply Permutation_swap.
Qed.

Lemma sorted_ints_Permutation l : sorted_ints l ≡ₚ l.
Proof.
  induction l as [|x l IH]; simpl; [reflexivity|].
  by rewrite insert_int_Permutation, IH.
Qed.

Lemma insert_int_sorted x l :
  StronglySorted Z.le l -> StronglySorted Z.le (insert_int x l).
Proof.
  induction 1 as [|y l Hs IH Hy]; simpl; [repeat constructor|].
  destruct (Z.ltb_spec y x) as [Hlt|Hge].
  - constructor; [exact IH|].
    apply Forall_forall. intros k Hk.
    rewrite (insert_int_Permutation x l) in Hk.
    apply elem_of_cons in Hk as [->|Hk]; [lia|].
    rewrite Forall_forall in Hy. by apply Hy.
  - constructor; [by constructor|]. constructor; [exact Hge|].
    eapply Forall_impl; [exact Hy|]. simpl. intros k Hk. lia.
Qed.

Lemma sorted_ints_sorted l : StronglySorted Z.le (sorted_ints l).
Proof.
  induction l as [|x l IH]; simpl; [constructor|]. by apply insert_int_sorted.
Qed.

Lemma range_sorted (start n : nat) :
  StronglySorted Z.le (List.map Z.of_nat (seq start n)).
Proof.
  revert start. induction n as [|n IH]; intros start; simpl; constructor; [apply IH|].
  apply Forall_forall. intros k Hk.
  apply list_elem_of_In, List.in_map_iff in Hk as (i & <- & Hi).
  apply List.in_seq in Hi. lia.
Qed.

Lemma sorted_ints_range l n :
  sorted_ints l = range_from_1 n <-> l ≡ₚ range_from_1 n.
Proof.
  split.
  - intros <-. symmetry. apply sorted_ints_Permutation.
  - intros Hp. apply (StronglySorted_unique_strong Z.le).
    + intros x1 x2 _ _ H1 H2. lia.
    + apply sorted_ints_sorted.
    + apply range_sorted.
    + by rewrite sorted_ints_Permutation.
Qed.

Lemma check_sizes_Done files :
  check_sizes files = Done tt <-> Forall sized files.
Proof.
  induction files as [|f rest IH]; cbn [check_sizes].
  - split; [constructor|reflexivity].
  - rewrite Forall_cons. destruct (stat f) as [n|e] eqn:Hs.
    + destruct (N.eqb_spec n 0) as [->|Hn].
      * split; [discriminate|]. intros [(m & Heq & Hm) _]. congruence.
      * rewrite IH. split; [|tauto]. intros Hrest. split; [|exact Hrest].
        exists n. by split.
    + split; [discriminate|]. intros [(m & Hm & _) _]. congruence.
Qed.

Lemma entry_ids_length int files ids :
  entry_ids int files = Done ids -> length ids = length files.
Proof.
  revert ids. induction files as [|f rest IH]; intros ids; cbn [entry_ids].
  - by intros [= <-].
  - destruct (entry_id int f); [|discriminate]. cbn [checked_bind].
    destruct (entry_ids int rest) as [ids'|]; [|discriminate]. cbn [checked_bind].
    intros [= <-]. simpl. by rewrite (IH ids').
Qed.

Lemma validate_dataset_Done (int : str -> option Z) (path : PathState) :
  _validate_dataset int path = Done tt ->
  exists entries raw_ids meta_ids,
    path = Directory entries /\ entries <> [] /\
    length (glob_star "_meta.json" entries) = length (glob_star "_raw.txt" entries) /\
    Forall sized (glob_star "_raw.txt" entries ++ glob_star "_meta.json" entries) /\
    entry_ids int (glob_star "_raw.txt" entries) = Done raw_ids /\
    entry_ids int (glob_star "_meta.json" entries) = Done meta_ids /\
    raw_ids ≡ₚ range_from_1 (length raw_ids) /\
    meta_ids ≡ₚ range_from_1 (length meta_ids).
Proof.
  destruct path as [| |entries]; try discriminate.
  destruct entries as [|e entries]; [discriminate|].
  unfold _validate_dataset.
  set (raw := glob_star "_raw.txt" (e :: entries)).
  set (meta := glob_star "_meta.json" (e :: entries)).
  destruct (Nat.eqb_spec (length meta) (length raw)) as [Hlen|]; [|discriminate].
  cbn [negb].
  destruct (check_sizes raw) as [[]|] eqn:Hraw; [|discriminate]. cbn [checked_bind].
  destruct (check_sizes meta) as [[]|] eqn:Hmeta; [|discriminate]. cbn [checked_bind].
  destruct (entry_ids int raw) as [raw_ids|] eqn:Hrid; [|discriminate].
  cbn [checked_bind].
  destruct (entry_ids int meta) as [meta_ids|] eqn:Hmid; [|discriminate].
  cbn [checked_bind].
  destruct (bool_decide_reflect
              (sorted_ints raw_ids = range_from_1 (length raw_ids))) as [Hr|];
    [|discriminate]. cbn [negb].
  destruct (bool_decide_reflect
              (sorted_ints meta_ids = range_from_1 (length meta_ids))) as [Hm|];
    [|discriminate]. intros _.
  exists (e :: entries), raw_ids, meta_ids.
  split; [reflexivity|]. split; [discriminate|]. split; [exact Hlen|].
  split; [apply Forall_app; split; by apply check_sizes_Done|].
  split; [exact Hrid|]. split; [exact Hmid|].
  split; by apply sorted_ints_range.
Qed.



Lemma range_from_1_elem (n : nat) (k : Z) :
  k ∈ range_from_1 n <-> (1 <= k <= Z.of_nat n)%Z.
Proof.
  unfold range_from_1. rewrite list_elem_of_In, List.in_map_iff. split.
  - intros (i & <- & Hi). apply List.in_seq in Hi. lia.
  - intros Hk. exists (Z.to_nat k). split; [lia|]. apply List.in_seq. lia.
Qed.

Lemma range_from_1_NoDup (n : nat) : NoDup (range_from_1 n).
Proof.
  unfold range_from_1. apply NoDup_fmap_2; [intros i j Hij; lia|].
  apply NoDup_ListNoDup, List.seq_NoDup.
Qed.

(** X17. After [_validate_dataset] has passed, the ids read from the raw
    files are the numbers 1 to n, each exactly once, n being the number of
    raw files, and so are the ids read from the meta files: no id is
    missing, repeated, or without its counterpart. *)
Theorem validated_ids_are_contiguous (int : str -> option Z) (entries : list DirEntry) :
  _validate_dataset int (Directory entries) = Done tt ->
  exists raw_ids meta_ids,
    entry_ids int (glob_star "_raw.txt" entries) = Done raw_ids /\
    entry_ids int (glob_star "_meta.json" entries) = Done meta_ids /\
    length raw_ids = length (glob_star "_raw.txt" entries) /\
    length meta_ids = length raw_ids /\
    NoDup raw_ids /\ NoDup meta_ids /\
    (forall k, k ∈ raw_ids <-> (1 <= k <= Z.of_nat (length raw_ids))%Z) /\
    (forall k, k ∈ meta_ids <-> (1 <= k <= Z.of_nat (length raw_ids))%Z).
Proof.
  intros Hv. apply validate_dataset_Done in Hv
    as (entries' & raw_ids & meta_ids & [= <-] & _ & Hlen & _ & Hrid & Hmid & Hr & Hm).
  pose proof (entry_ids_length _ _ _ Hrid) as Hlr.
  pose proof (entry_ids_length _ _ _ Hmid) as Hlm.
  assert (Hsame : length meta_ids = length raw_ids) by congruence.
  exists raw_ids, meta_ids.
  split; [exact Hrid|]. split; [exact Hmid|]. split; [exact Hlr|].
  split; [exact Hsame|].
  rewrite Hsame in Hm. clear Hsame Hlr Hlm Hlen Hrid Hmid.
  remember (length raw_ids) as n eqn:Hn. clear Hn.
  split; [rewrite Hr; apply range_from_1_NoDup|].
  split; [rewrite Hm; apply range_from_1_NoDup|].
  split; intros k; [rewrite Hr|rewrite Hm]; apply range_from_1_elem.
Qed.

Lemma validated_ids_are_contiguous_witness :
  _validate_dataset int_of_digits sample_directory = Done tt /\
  entry_ids int_of_digits
    (glob_star "_raw.txt"
       [ file "2_raw.txt" 120; file "1_meta.json" 64; file "notes.md" 0;
         file "1_raw.txt" 300; file "2_meta.json" 51 ]) = Done [2%Z; 1%Z].
Proof.
  split; [vm_compute; reflexivity|].
  destruct (validated_ids_are_contiguous int_of_digits
              [ file "2_raw.txt" 120; file "1_meta.json" 64; file "notes.md" 0;
                file "1_raw.txt" 300; file "2_meta.json" 51 ])
    as (raw_ids & meta_ids & Hraw & _); [vm_compute; reflexivity|].
  vm_compute. reflexivity.
Defined.







(** ** The storage of [CorpusManager] *)

Section StorageFacts.
Variable get_id : DirEntry -> Z.
Variable from_raw : DirEntry -> Article.

Let scan (files : list DirEntry) (m : gmap Z Article) : gmap Z Article :=
  foldl (fun storage file => <[get_id file := from_raw file]> storage) m files.

Lemma scan_lookup_other files m k :
  (forall f, f ∈ files -> get_id f <> k) -> scan files m !! k = m !! k.
Proof.
  revert m. induction files as [|f rest IH]; intros m Hne; [reflexivity|].
  simpl. rewrite IH.
  - apply lookup_insert_ne. apply Hne. apply list_elem_of_here.
  - intros f' Hf'. apply Hne. by apply list_elem_of_further.
Qed.

Lemma scan_lookup_Some files m k a :
  scan files m !! k = Some a ->
  (exists f, f ∈ files /\ get_id f = k /\ a = from_raw f) \/ m !! k = Some a.
Proof.
  revert m. induction files as [|f rest IH]; intros m; [by right|].
  simpl. intros Hl. destruct (IH _ Hl) as [(f' & Hf' & Hk & Ha)|Hm].
  - left. exists f'. split; [by apply list_elem_of_further|by split].
  - destruct (decide (get_id f = k)) as [Heq|Hne].
    + rewrite <- Heq, lookup_insert_eq in Hm. injection Hm as <-.
      left. exists f. split; [apply list_elem_of_here|by split].
    + rewrite lookup_insert_ne in Hm by exact Hne. by right.
Qed.

Lemma scan_lookup_kept files m k :
  is_Some (m !! k) \/ (exists f, f ∈ files /\ get_id f = k) ->
  is_Some (scan files m !! k).
Proof.
  revert m. induction files as [|f rest IH]; intros m Hor.
  - destruct Hor as [Hm|(f & Hf & _)]; [exact Hm|inversion Hf].
  - simpl. apply IH.
    destruct Hor as [Hm|(f0 & Hf0 & Hk)].
    + left. rewrite lookup_insert_is_Some. destruct (decide (get_id f = k)); auto.
    + apply elem_of_cons in Hf0 as [->|Hf0]; [|right; eauto].
      left. rewrite Hk, lookup_insert_eq. eauto.
Qed.

Lemma scan_lookup_is_Some files m f :
  f ∈ files -> is_Some (scan files m !! get_id f).
Proof. intros Hf. apply scan_lookup_kept. right. eauto. Qed.

Lemma scan_distinct files m :
  NoDup (get_id <$> files) ->
  (forall f, f ∈ files -> m !! get_id f = None) ->
  size (scan files m) = (size m + length files)%nat /\
  forall f, f ∈ files -> scan files m !! get_id f = Some (from_raw f).
Proof.
  revert m. induction files as [|f rest IH]; intros m Hnd Hfresh.
  - split; [simpl; lia|]. intros f Hf. inversion Hf.
  - rewrite fmap_cons in Hnd. apply NoDup_cons in Hnd as [Hf Hnd].
    assert (Hother : forall f', f' ∈ rest -> get_id f' <> get_id f).
    { intros f' Hf' Heq. apply Hf. rewrite <- Heq. by apply list_elem_of_fmap_2. }
    destruct (IH (<[get_id f := from_raw f]> m) Hnd) as [Hsize Hlook].
    { intros f' Hf'. rewrite lookup_insert_ne by (symmetry; by apply Hother).
      apply Hfresh. by apply list_elem_of_further. }
    change (scan (f :: rest) m) with (scan rest (<[get_id f := from_raw f]> m)).
    split.
    + rewrite Hsize.
      rewrite map_size_insert_None by (apply Hfresh; apply list_elem_of_here).
      simpl. lia.
    + intros f' Hf'. apply elem_of_cons in Hf' as [->|Hf']; [|by apply Hlook].
      rewrite scan_lookup_other by exact Hother. apply lookup_insert_eq.
Qed.
End StorageFacts.

(** X20. The storage of a successfully built CorpusManager holds exactly
    the ids of the files ending in [_raw.txt], each with the article read
    from a raw file of that id; when the ids of the raw files are
    pairwise different, it holds one article per raw file, the one read
    from that file. *)
Theorem storage_holds_the_raw_files (int : str -> option Z)
    (get_id : DirEntry -> Z) (from_raw : DirEntry -> Article)
    (path : PathState) (storage : gmap Z Article) :
  CorpusManager int get_id from_raw path = Done storage ->
  exists entries,
    path = Directory entries /\
    (forall k, is_Some (get_articles storage !! k) <->
               exists f, f ∈ glob_star "_raw.txt" entries /\ get_id f = k) /\
    (forall k a, get_articles storage !! k = Some a ->
                 exists f, f ∈ glob_star "_raw.txt" entries /\ get_id f = k /\
                           a = from_raw f) /\
    (NoDup (get_id <$> glob_star "_raw.txt" entries) ->
     size (get_articles storage) = length (glob_star "_raw.txt" entries) /\
     forall f, f ∈ glob_star "_raw.txt" entries ->
               get_articles storage !! get_id f = Some (from_raw f)).
Proof.
  unfold CorpusManager, get_articles. intros Hc.
  destruct (_validate_dataset int path) as [[]|] eqn:Hv; [|discriminate].
  cbn [checked_bind] in Hc. injection Hc as <-.
  destruct path as [| |entries]; try discriminate.
  exists entries. split; [reflexivity|]. unfold _scan_dataset. cbn [entries_of].
  assert (Hsome : forall k a,
            foldl (fun storage file => <[get_id file := from_raw file]> storage)
                  (∅ : gmap Z Article) (glob_star "_raw.txt" entries) !! k = Some a ->
            exists f, f ∈ glob_star "_raw.txt" entries /\ get_id f = k /\ a = from_raw f).
  { intros k a Hl. apply scan_lookup_Some in Hl as [Hf|Hm]; [exact Hf|].
    rewrite lookup_empty in Hm. discriminate. }
  split; [|split; [exact Hsome|]].
  - intros k. split.
    + intros [a Ha]. destruct (Hsome k a Ha) as (f & Hf & Hk & _). eauto.
    + intros (f & Hf & <-). by apply scan_lookup_is_Some.
  - intros Hnd.
    destruct (scan_distinct get_id from_raw (glob_star "_raw.txt" entries) ∅ Hnd)
      as [Hsize Hlook]; [intros f _; apply lookup_empty|].
    split; [|exact Hlook]. rewrite Hsize, map_size_empty. reflexivity.
Qed.

Lemma storage_holds_the_raw_files_witness :
  exists storage,
    CorpusManager int_of_digits sample_id sample_from_raw sample_directory = Done storage /\
    get_articles storage !! 2%Z = Some (mkArticle (lit "2_raw.txt") []).
Proof.
  eexists. split; [vm_compute; reflexivity|].
  destruct (storage_holds_the_raw_files int_of_digits sample_id sample_from_raw
              sample_directory _ eq_refl) as (entries & Hpath & _ & _ & Hdistinct).
  injection Hpath as <-.
  destruct Hdistinct as [_ Hlook].
  - change (NoDup [2%Z; 1%Z]). apply NoDup_cons. split; [|apply NoDup_singleton].
    intros Hin%list_elem_of_singleton. discriminate.
  - apply (Hlook (file "2_raw.txt" 120)). vm_compute. apply list_elem_of_here.
Defined.

(** ** [MorphologicalAnalysisPipeline.run] *)

(** X21. [run] goes through the articles in order and stops at the first
    one whose [_process] fails, ending with that error.  Every article
    before it has been given its sentences and handed to the three
    writers, in the order cleaned text, CONLL-U without features, CONLL-U
    with features; the failing article and the articles after it are
    handed to no writer.  Without a failing article, [run] ends normally
    after all of them. *)
Theorem run_stops_at_first_failure `{UnicodeData} (tc : TagConverter)
    (split_by_sentence : str -> list str) (analyze : str -> list AnalyzerRecord)
    (articles : list Article) :
  exists finished finished' rest,
    articles = finished ++ rest /\
    Forall2 (fun article article' =>
               exists sentences,
                 process_text tc split_by_sentence analyze (article_text article) =
                   Ok sentences /\
                 article' = set_conllu_sentences article sentences)
            finished finished' /\
    (run tc split_by_sentence analyze articles).1 =
      concat (List.map outputs_of finished') /\
    ((rest = [] /\ (run tc split_by_sentence analyze articles).2 = Ok tt) \/
     (exists failing rest' e,
        rest = failing :: rest' /\
        process_text tc split_by_sentence analyze (article_text failing) = Raise e /\
        (run tc split_by_sentence analyze articles).2 = Raise e)).
Proof.
  induction articles as [|article articles IH].
  - exists [], [], []. repeat split; [constructor|by left].
  - cbn [run].
    destruct (process_text tc split_by_sentence analyze (article_text article))
      as [sentences|e] eqn:Hp.
    + destruct IH as (finished & finished' & rest & Ha & Hf & Hw & Hend).
      destruct (run tc split_by_sentence analyze articles) as [written ending].
      cbn [fst snd] in *.
      exists (article :: finished), (set_conllu_sentences article sentences :: finished'),
             rest.
      split; [simpl; by rewrite Ha|].
      split; [constructor; [eauto|exact Hf]|].
      split; [simpl; by rewrite Hw|exact Hend].
    + exists [], [], (article :: articles).
      repeat split; [constructor|]. right. exists article, articles, e. by repeat split.
Qed.

(** An article the table cannot tag stops the run: the article before it
    is written, the article after it is not reached. *)
Example run_three_articles :
  run sample_converter (fun text => [text])
      (fun text => if bool_decide (text = lit "Кот") then [analysed "Кот" "кот" "Q"]
                   else [word "Да"])
      [mkArticle (lit "Да") []; mkArticle (lit "Кот") []; mkArticle (lit "Да") []] =
  ( outputs_of
      (mkArticle (lit "Да")
         [ mkSentence 0 (lit "Да")
             [ mkToken (lit "Да") (mkDTO (lit "Да") (lit "X") []) 1;
               mkToken (lit ".") (mkDTO (lit ".") (lit "PUNCT") []) 2 ] ]),
    Raise (KeyError (lit "Q")) ).
Proof. vm_compute. reflexivity. Qed.

(** ** The alignment loop and the tokens, record by record *)

(** X22. The share of the stream a sentence reads ends right after the
    first record that passes the stop test, that is, whose text occurs in
    the sentence and leaves no alphanumeric character when removed from
    it: the sentence keeps the accepted records up to that one, and the
    records after it are left to the next sentence. *)
Theorem sentence_share_ends_at_first_stop `{UnicodeData} (sentence : str)
    (before : list AnalyzerRecord) (token : AnalyzerRecord)
    (after tokens : list AnalyzerRecord) :
  Forall (never_stops sentence) before ->
  contains (text token) sentence = true ->
  any_isalnum (sub_first (text token) sentence) = false ->
  collect_tokens sentence (before ++ token :: after) tokens =
    (tokens ++ List.filter (accepted sentence) (before ++ [token]), after).
Proof.
  intros Hbefore Hin Hstop. revert tokens.
  induction Hbefore as [|r before Hr _ IH]; intros tokens.
  - cbn [app]. rewrite (collect_tokens_stop sentence token after tokens Hin).
    cbv zeta. rewrite Hstop. rewrite filter_accepted_cons, Hin. simpl.
    destruct (any_isalnum (text token)); [reflexivity|by rewrite app_nil_r].
  - cbn [app collect_tokens]. rewrite filter_accepted_cons.
    destruct (contains (text r) sentence) eqn:Hc; cbn [negb andb]; [|apply IH].
    rewrite (Hr Hc). cbn [negb]. rewrite IH.
    destruct (any_isalnum (text r)); [by rewrite <- app_assoc|reflexivity].
Qed.

Lemma sentence_share_ends_at_first_stop_witness :
  Forall (never_stops (lit "ab")) [plain "x"; word "a"] /\
  collect_tokens (lit "ab") [plain "x"; word "a"; word "ab"; word "b"] [] =
    ([word "a"; word "ab"], [word "b"]).
Proof.
  assert (Hbefore : Forall (never_stops (lit "ab")) [plain "x"; word "a"]).
  { unfold never_stops. repeat (constructor; [intros _; vm_compute; reflexivity|]).
    constructor. }
  split; [exact Hbefore|].
  exact (@sentence_share_ends_at_first_stop basic_table (lit "ab")
           [plain "x"; word "a"] (word "ab") [word "b"] [] Hbefore eq_refl eq_refl).
Defined.

Lemma build_token_built_from `{UnicodeData} tc idx r t :
  build_token tc idx r = Ok t -> built_from tc r t.
Proof.
  unfold build_token, built_from. intros Hb.
  apply bind_Ok in Hb as (m & Hm & Hb). injection Hb as <-. simpl.
  split; [reflexivity|].
  destruct (analysis r) as [[|first rest]|].
  - injection Hm as <-. repeat split.
  - apply bind_Ok in Hm as (p & Hp & Hm). apply bind_Ok in Hm as (f & Hf & Hm).
    injection Hm as <-. simpl. by repeat split.
  - injection Hm as <-. repeat split.
Qed.

(** X23. The tokens of a returned sentence are built one per record of the
    sentence's group, in order: each has the record's text; a record with
    an analysis gives the lemma of its first candidate and the converted
    POS and features of that candidate's tag string; a record without one
    gives its text as lemma, no features, and PUNCT, NUM or X by the
    fallback rule. *)
Theorem tokens_built_record_by_record `{UnicodeData} tc sentences records sents :
  _process tc sentences records = Ok sents ->
  Forall2 (fun tokens s => Forall2 (built_from tc) tokens (sent_tokens s))
          (groups sentences records) sents.
Proof.
  intros Hp. apply process_sentences_Ok in Hp as (_ & Hg & _).
  eapply Forall2_impl; [exact Hg|]. simpl. intros tokens s Hb.
  apply build_tokens_Ok in Hb as [Hf _].
  eapply Forall2_impl; [exact Hf|]. simpl. intros r t. apply build_token_built_from.
Qed.

Lemma tokens_built_record_by_record_witness :
  _process sample_converter demo_sentences demo_records = Ok demo_output /\
  Forall2 (fun tokens s => Forall2 (built_from sample_converter) tokens (sent_tokens s))
          (groups demo_sentences demo_records) demo_output.
Proof.
  split; [vm_compute; reflexivity|].
  apply (tokens_built_record_by_record sample_converter demo_sentences demo_records).
  vm_compute. reflexivity.
Defined.
